(** * smcli wallet: a shallow embedding of [wallet/wallet.go]

    The development follows the Go source of the wallet package: mnemonic
    validation, account derivation, address computation, multisig spawn
    validation and the hex/JSON codec of binary fields.

    Conventions.
    - A Go [string] and a Go [[]byte] are both sequences of bytes; they are
      embedded as [list byte].  String literals of the source are written
      with [str].
    - A Go [int] is embedded as [Z]; a [uint8] as [byte], read through
      [Byte.to_N]; the conversion [uint8(x)] of an [int] is written out as
      reduction modulo 256.
    - A Go [rune] is embedded as [N].
    - A function returning [(T, error)] returns a [result T]; the error
      values are told apart by the place that creates them, which are the
      constructors of [error]. *)

From Stdlib Require Import ZArith NArith String Ascii Bool Lia List.
From Stdlib Require Import Strings.Byte.
Import ListNotations.

Set Implicit Arguments.

(** ** Bytes and Go strings *)

Definition gostring := list byte.

(** A string literal of the source. *)
Definition str (s : string) : gostring := list_byte_of_string s.

Definition byte_val (b : byte) : N := Byte.to_N b.

(** The byte with value [n mod 256]. *)
Definition byte_of_N (n : N) : byte :=
  match Byte.of_N (n mod 256) with
  | Some b => b
  | None => x00
  end.

Definition gostring_eq_dec (a b : gostring) : {a = b} + {a <> b} :=
  list_eq_dec Byte.byte_eq_dec a b.

(** The comparison [a != b] of two strings. *)
Definition gostring_neqb (a b : gostring) : bool :=
  if gostring_eq_dec a b then false else true.

(** ** unicode/utf8 *)

Module utf8.

Definition RuneError : N := 0xFFFD.
Definition RuneSelf : N := 0x80.

(** The table [first] of the decoder, for a leading byte that is neither
    ASCII nor invalid: the size of the encoding and the accepted range of
    the second byte. *)
Definition first (s0 : N) : option (nat * N * N) :=
  if (s0 <? 0xC2)%N then None
  else if (s0 <=? 0xDF)%N then Some (2%nat, 0x80, 0xBF)%N
  else if (s0 =? 0xE0)%N then Some (3%nat, 0xA0, 0xBF)%N
  else if (s0 <=? 0xEC)%N then Some (3%nat, 0x80, 0xBF)%N
  else if (s0 =? 0xED)%N then Some (3%nat, 0x80, 0x9F)%N
  else if (s0 <=? 0xEF)%N then Some (3%nat, 0x80, 0xBF)%N
  else if (s0 =? 0xF0)%N then Some (4%nat, 0x90, 0xBF)%N
  else if (s0 <=? 0xF3)%N then Some (4%nat, 0x80, 0xBF)%N
  else if (s0 =? 0xF4)%N then Some (4%nat, 0x80, 0x8F)%N
  else None.

Definition locb : N := 0x80.
Definition hicb : N := 0xBF.
Definition maskx : N := 0x3F.
Definition mask2 : N := 0x1F.
Definition mask3 : N := 0x0F.
Definition mask4 : N := 0x07.

Definition out_of (lo hi : N) (b : byte) : bool :=
  ((byte_val b <? lo) || (hi <? byte_val b))%N.

Definition bits (mask : N) (b : byte) : N := N.land (byte_val b) mask.

(** [DecodeRuneInString]: the first rune of [s] and its width in bytes;
    [(RuneError, 0)] on the empty string and [(RuneError, 1)] on an invalid
    encoding. *)
Definition DecodeRuneInString (s : gostring) : N * nat :=
  match s with
  | [] => (RuneError, 0%nat)
  | b0 :: t0 =>
    let s0 := byte_val b0 in
    if (s0 <? RuneSelf)%N then (s0, 1%nat)
    else
      match first s0 with
      | None => (RuneError, 1%nat)
      | Some (sz, lo, hi) =>
        if (length s <? sz)%nat then (RuneError, 1%nat)
        else
          match t0 with
          | [] => (RuneError, 1%nat)
          | b1 :: t1 =>
            if out_of lo hi b1 then (RuneError, 1%nat)
            else if (sz <=? 2)%nat then
              (N.lor (N.shiftl (bits mask2 b0) 6) (bits maskx b1), 2%nat)
            else
              match t1 with
              | [] => (RuneError, 1%nat)
              | b2 :: t2 =>
                if out_of locb hicb b2 then (RuneError, 1%nat)
                else if (sz <=? 3)%nat then
                  (N.lor (N.lor (N.shiftl (bits mask3 b0) 12)
                                (N.shiftl (bits maskx b1) 6))
                         (bits maskx b2), 3%nat)
                else
                  match t2 with
                  | [] => (RuneError, 1%nat)
                  | b3 :: _ =>
                    if out_of locb hicb b3 then (RuneError, 1%nat)
                    else
                      (N.lor (N.lor (N.lor (N.shiftl (bits mask4 b0) 18)
                                           (N.shiftl (bits maskx b1) 12))
                                    (N.shiftl (bits maskx b2) 6))
                             (bits maskx b3), 4%nat)
                  end
              end
          end
      end
  end.

End utf8.

(** ** unicode *)

Module unicode.

Definition MaxLatin1 : N := 0xFF.

(** [IsSpace]: the Latin-1 spaces, and the White_Space property above
    Latin-1. *)
Definition IsSpace (r : N) : bool :=
  if (r <=? MaxLatin1)%N then
    ((r =? 0x09) || (r =? 0x0A) || (r =? 0x0B) || (r =? 0x0C) || (r =? 0x0D)
     || (r =? 0x20) || (r =? 0x85) || (r =? 0xA0))%N
  else
    ((r =? 0x1680) || ((0x2000 <=? r) && (r <=? 0x200A))
     || (r =? 0x2028) || (r =? 0x2029) || (r =? 0x202F) || (r =? 0x205F)
     || (r =? 0x3000))%N.

End unicode.

(** ** strings *)

Module strings.

(** "Last field might end at EOF": what [FieldsFunc] and [Fields] do
    after their loop with the span that is still open. *)
Definition last_field (start : option gostring) (spans : list gostring)
  : list gostring :=
  match start with
  | Some w => spans ++ [w]
  | None => spans
  end.

(** The loop [for end, rune := range s] of [FieldsFunc].  [start] is the
    open span, kept as the bytes [s[start:end]] read so far ([None] when
    [start < 0]); [spans] are the closed spans, as the substrings they
    denote.  Each turn consumes the bytes of one rune, so [length s] turns
    are enough.  The result is the state after the loop. *)
Fixpoint FieldsFunc_loop (turns : nat) (f : N -> bool) (s : gostring)
    (start : option gostring) (spans : list gostring)
  : option gostring * list gostring :=
  match turns, s with
  | S turns', _ :: _ =>
    let (rune, size) := utf8.DecodeRuneInString s in
    let rest := skipn size s in
    if f rune then
      match start with
      | Some w => FieldsFunc_loop turns' f rest None (spans ++ [w])
      | None => FieldsFunc_loop turns' f rest None spans
      end
    else
      match start with
      | Some w => FieldsFunc_loop turns' f rest (Some (w ++ firstn size s)) spans
      | None => FieldsFunc_loop turns' f rest (Some (firstn size s)) spans
      end
  | _, _ => (start, spans)
  end.

Definition FieldsFunc (s : gostring) (f : N -> bool) : list gostring :=
  let (start, spans) := FieldsFunc_loop (length s) f s None [] in
  last_field start spans.

(** The table [asciiSpace]. *)
Definition asciiSpace (b : byte) : bool :=
  match b with
  | x09 | x0a | x0b | x0c | x0d | x20 => true
  | _ => false
  end.

(** The loops of the ASCII fast path of [Fields].  [field] is [None]
    while spaces are being skipped (in front of the input and between
    fields) and [Some (s[fieldStart:i])] while a field is being read.
    The result is the state after the loops. *)
Fixpoint Fields_ascii (s : gostring) (field : option gostring)
    (a : list gostring) : option gostring * list gostring :=
  match s, field with
  | [], _ => (field, a)
  | b :: rest, None =>
    if asciiSpace b then Fields_ascii rest None a
    else Fields_ascii rest (Some [b]) a
  | b :: rest, Some w =>
    if asciiSpace b then Fields_ascii rest None (a ++ [w])
    else Fields_ascii rest (Some (w ++ [b])) a
  end.

(** [Fields]: the ASCII fast path when every byte is below [RuneSelf],
    [FieldsFunc(s, unicode.IsSpace)] otherwise. *)
Definition Fields (s : gostring) : list gostring :=
  if forallb (fun b => (byte_val b <? utf8.RuneSelf)%N) s
  then let (field, a) := Fields_ascii s None [] in last_field field a
  else FieldsFunc s unicode.IsSpace.

(** [Join]. *)
Fixpoint Join (elems : list gostring) (sep : gostring) : gostring :=
  match elems with
  | [] => []
  | [e] => e
  | e :: rest => e ++ sep ++ Join rest sep
  end.

End strings.


(** ** Errors and results *)

(** The error values of the package, by the place that creates them. *)
Inductive error : Type :=
| errWhitespace          (* "whitespace violation in mnemonic phrase" *)
| errInvalidAccounts     (* fmt.Errorf("invalid number of accounts") *)
| errInvalidMnemonic     (* fmt.Errorf("invalid mnemonic") *)
| errInvalidThreshold    (* fmt.Errorf("invalid threshold") *)
| errInvalidParticipants (* fmt.Errorf("invalid number of participants") *)
| hex_ErrLength          (* encoding/hex: odd length hex string *)
| hex_InvalidByteError (b : byte) (* encoding/hex: invalid byte *)
| json_UnmarshalError    (* a *json.SyntaxError or *json.UnmarshalTypeError *)
| errExternal (msg : string). (* an error returned by a key-derivation call *)

(** The outcome of a call that returns [(T, error)]: a value, an error, or
    a run-time panic. *)
Inductive result (A : Type) : Type :=
| Ok (a : A)
| Err (e : error)
| Panic (msg : string).

Arguments Ok {A} a.
Arguments Err {A} e.
Arguments Panic {A} msg.

(** ** unicode/utf16 and the UTF-8 encoder *)

Module utf16.

Definition surr1 : N := 0xd800.
Definition surr2 : N := 0xdc00.
Definition surr3 : N := 0xe000.
Definition surrSelf : N := 0x10000.
Definition replacementChar : N := 0xFFFD.

Definition IsSurrogate (r : N) : bool := ((surr1 <=? r) && (r <? surr3))%N.

(** [DecodeRune(r1, r2)]; [r2 = None] stands for a negative second rune. *)
Definition DecodeRune (r1 : N) (r2 : option N) : N :=
  match r2 with
  | Some r2 =>
    if ((surr1 <=? r1) && (r1 <? surr2) && (surr2 <=? r2) && (r2 <? surr3))%N
    then (N.lor (N.shiftl (r1 - surr1) 10) (r2 - surr2) + surrSelf)%N
    else replacementChar
  | None => replacementChar
  end.

End utf16.

Module utf8enc.

Definition three (r : N) : gostring :=
  [byte_of_N (N.lor 0xE0 (N.shiftr r 12));
   byte_of_N (N.lor 0x80 (N.land (N.shiftr r 6) utf8.maskx));
   byte_of_N (N.lor 0x80 (N.land r utf8.maskx))].

(** [utf8.EncodeRune], as the bytes written. *)
Definition EncodeRune (r : N) : gostring :=
  if (r <=? 0x7F)%N then [byte_of_N r]
  else if (r <=? 0x7FF)%N then
    [byte_of_N (N.lor 0xC0 (N.shiftr r 6));
     byte_of_N (N.lor 0x80 (N.land r utf8.maskx))]
  else if ((0x10FFFF <? r) || ((0xD800 <=? r) && (r <=? 0xDFFF)))%N then
    three utf8.RuneError
  else if (r <=? 0xFFFF)%N then three r
  else
    [byte_of_N (N.lor 0xF0 (N.shiftr r 18));
     byte_of_N (N.lor 0x80 (N.land (N.shiftr r 12) utf8.maskx));
     byte_of_N (N.lor 0x80 (N.land (N.shiftr r 6) utf8.maskx));
     byte_of_N (N.lor 0x80 (N.land r utf8.maskx))].

End utf8enc.

(** ** encoding/hex *)

Module hex.

Definition hextable : gostring := str "0123456789abcdef".

Definition hexdigit (i : N) : byte := nth (N.to_nat i) hextable x00.

(** [EncodeToString]: two digits of [hextable] for each byte. *)
Fixpoint EncodeToString (src : list byte) : gostring :=
  match src with
  | [] => []
  | v :: rest =>
    hexdigit (N.shiftr (byte_val v) 4)
    :: hexdigit (N.land (byte_val v) 0x0f)
    :: EncodeToString rest
  end.

(** [fromHexChar]: the value of a hex digit of either case. *)
Definition fromHexChar (c : byte) : option N :=
  let v := byte_val c in
  if ((0x30 <=? v) && (v <=? 0x39))%N then Some (v - 0x30)%N
  else if ((0x61 <=? v) && (v <=? 0x66))%N then Some (v - 0x61 + 10)%N
  else if ((0x41 <=? v) && (v <=? 0x46))%N then Some (v - 0x41 + 10)%N
  else None.

(** [Decode]: the bytes decoded before the first error, and the error.
    [dst] holds the bytes written so far. *)
Fixpoint Decode (dst : list byte) (src : gostring) : list byte * option error :=
  match src with
  | p :: q :: rest =>
    match fromHexChar p with
    | None => (dst, Some (hex_InvalidByteError p))
    | Some a =>
      match fromHexChar q with
      | None => (dst, Some (hex_InvalidByteError q))
      | Some b => Decode (dst ++ [byte_of_N (N.lor (N.shiftl a 4) b)]) rest
      end
    end
  | [p] =>
    (* Check for invalid char before reporting bad length. *)
    match fromHexChar p with
    | None => (dst, Some (hex_InvalidByteError p))
    | Some _ => (dst, Some hex_ErrLength)
    end
  | [] => (dst, None)
  end.

Definition DecodeString (s : gostring) : list byte * option error :=
  Decode [] s.

End hex.

(** ** encoding/json, for a value of type string *)

Module json.

(** [htmlSafeSet]: the ASCII bytes written without escaping. *)
Definition htmlSafeSet (b : byte) : bool :=
  let v := byte_val b in
  ((0x20 <=? v) && (v <=? 0x7F))%N
  && negb (match b with
           | x22 | x26 | x3c | x3e | x5c => true
           | _ => false
           end).

(** The escape written for an ASCII byte outside [htmlSafeSet]. *)
Definition escape_ascii (b : byte) : gostring :=
  match b with
  | x5c | x22 => [x5c; b]
  | x08 => str "\b"
  | x0c => str "\f"
  | x0a => str "\n"
  | x0d => str "\r"
  | x09 => str "\t"
  | _ => str "\u00" ++ [hex.hexdigit (N.shiftr (byte_val b) 4);
                        hex.hexdigit (N.land (byte_val b) 0xF)]
  end.

(** The loop of [appendString] over [src[i:]], with HTML escaping. *)
Fixpoint appendString_loop (turns : nat) (dst : list byte) (src : gostring)
  : list byte :=
  match turns, src with
  | S turns', b :: rest =>
    if (byte_val b <? utf8.RuneSelf)%N then
      if htmlSafeSet b then appendString_loop turns' (dst ++ [b]) rest
      else appendString_loop turns' (dst ++ escape_ascii b) rest
    else
      let (c, size) := utf8.DecodeRuneInString (firstn 4 src) in
      if ((c =? utf8.RuneError)%N && (size =? 1)%nat) then
        appendString_loop turns' (dst ++ str "\ufffd") (skipn size src)
      else if ((c =? 0x2028) || (c =? 0x2029))%N then
        appendString_loop turns'
          (dst ++ str "\u202" ++ [hex.hexdigit (N.land c 0xF)])
          (skipn size src)
      else
        appendString_loop turns' (dst ++ firstn size src) (skipn size src)
  | _, _ => dst
  end.

Definition appendString (dst : list byte) (src : gostring) : list byte :=
  appendString_loop (length src) (dst ++ [x22]) src ++ [x22].

(** [json.Marshal] of a string. *)
Definition Marshal (v : gostring) : result (list byte) :=
  Ok (appendString [] v).

(** The scanner's [isSpace]. *)
Definition isSpace (c : byte) : bool :=
  match c with
  | x20 | x09 | x0d | x0a => true
  | _ => false
  end.

Fixpoint skipSpace (data : list byte) : list byte :=
  match data with
  | c :: rest => if isSpace c then skipSpace rest else data
  | [] => []
  end.

Definition isHex (c : byte) : bool :=
  match hex.fromHexChar c with Some _ => true | None => false end.

(** The scanner inside a string literal, after the opening quote: the
    bytes up to the closing quote and the input after it, or [None] on a
    syntax error. *)
Fixpoint scanString (lit : list byte) (data : list byte)
  : option (list byte * list byte) :=
  match data with
  | [] => None
  | x22 :: rest => Some (lit, rest)
  | x5c :: data' =>
    match data' with
    | x75 :: h1 :: h2 :: h3 :: h4 :: rest =>
      if isHex h1 && isHex h2 && isHex h3 && isHex h4
      then scanString (lit ++ [x5c; x75; h1; h2; h3; h4]) rest
      else None
    | c :: rest =>
      match c with
      | x62 | x66 | x6e | x72 | x74 | x5c | x2f | x22 =>
        scanString (lit ++ [x5c; c]) rest
      | _ => None
      end
    | [] => None
    end
  | c :: rest =>
    if (byte_val c <? 0x20)%N then None else scanString (lit ++ [c]) rest
  end.

(** [getu4]: the rune of a [\uXXXX] escape at the front of [s]. *)
Definition getu4 (s : list byte) : option N :=
  match s with
  | x5c :: x75 :: h1 :: h2 :: h3 :: h4 :: _ =>
    match hex.fromHexChar h1, hex.fromHexChar h2,
          hex.fromHexChar h3, hex.fromHexChar h4 with
    | Some a, Some b, Some c, Some d =>
      Some (((a * 16 + b) * 16 + c) * 16 + d)%N
    | _, _, _, _ => None
    end
  | _ => None
  end.

(** The first pass of [unquoteBytes]: the longest prefix without unusual
    characters, and what follows it. *)
Fixpoint unquote_usual (turns : nat) (pre : list byte) (s : list byte)
  : list byte * list byte :=
  match turns, s with
  | S turns', c :: rest =>
    if match c with x5c | x22 => true | _ => (byte_val c <? 0x20)%N end
    then (pre, s)
    else if (byte_val c <? utf8.RuneSelf)%N
    then unquote_usual turns' (pre ++ [c]) rest
    else
      let (rr, size) := utf8.DecodeRuneInString s in
      if ((rr =? utf8.RuneError)%N && (size =? 1)%nat) then (pre, s)
      else unquote_usual turns' (pre ++ firstn size s) (skipn size s)
  | _, _ => (pre, s)
  end.

(** The second pass of [unquoteBytes]: [b] is the output so far. *)
Fixpoint unquote_slow (turns : nat) (b : list byte) (s : list byte)
  : option (list byte) :=
  match turns, s with
  | S turns', c :: rest =>
    match c with
    | x5c =>
      match rest with
      | [] => None
      | e :: rest' =>
        match e with
        | x22 | x5c | x2f | x27 => unquote_slow turns' (b ++ [e]) rest'
        | x62 => unquote_slow turns' (b ++ [x08]) rest'
        | x66 => unquote_slow turns' (b ++ [x0c]) rest'
        | x6e => unquote_slow turns' (b ++ [x0a]) rest'
        | x72 => unquote_slow turns' (b ++ [x0d]) rest'
        | x74 => unquote_slow turns' (b ++ [x09]) rest'
        | x75 =>
          match getu4 s with
          | None => None
          | Some rr =>
            let after := skipn 6 s in
            if utf16.IsSurrogate rr then
              let dec := utf16.DecodeRune rr (getu4 after) in
              if negb (dec =? utf16.replacementChar)%N then
                (* A valid pair; consume. *)
                unquote_slow turns' (b ++ utf8enc.EncodeRune dec) (skipn 6 after)
              else
                (* Invalid surrogate; fall back to replacement rune. *)
                unquote_slow turns'
                  (b ++ utf8enc.EncodeRune utf16.replacementChar) after
            else unquote_slow turns' (b ++ utf8enc.EncodeRune rr) after
          end
        | _ => None
        end
      end
    | x22 => None
    | _ =>
      if (byte_val c <? 0x20)%N then None
      else if (byte_val c <? utf8.RuneSelf)%N
      then unquote_slow turns' (b ++ [c]) rest
      else
        (* Coerce to well-formed UTF-8. *)
        let (rr, size) := utf8.DecodeRuneInString s in
        unquote_slow turns' (b ++ utf8enc.EncodeRune rr) (skipn size s)
    end
  | _, _ => Some b
  end.

(** [unquoteBytes] on the bytes between the quotes. *)
Definition unquote (s : list byte) : option gostring :=
  let (pre, rest) := unquote_usual (length s) [] s in
  match rest with
  | [] => Some pre
  | _ => unquote_slow (length rest) pre rest
  end.

(** [json.Unmarshal(data, &v)] for [v] of type string: the new value of
    [v] and the error.  The input must be one JSON value between optional
    spaces.  A string literal is stored unquoted, [null] leaves [v] as it
    is, and any other input, well-formed JSON or not, is an error. *)
Definition Unmarshal (data : list byte) (v : gostring)
  : gostring * option error :=
  match skipSpace data with
  | x22 :: rest =>
    match scanString [] rest with
    | Some (lit, after) =>
      match skipSpace after, unquote lit with
      | [], Some s => (s, None)
      | _, _ => (v, Some json_UnmarshalError)
      end
    | None => (v, Some json_UnmarshalError)
    end
  | x6e :: x75 :: x6c :: x6c :: after =>
    match skipSpace after with
    | [] => (v, None)
    | _ => (v, Some json_UnmarshalError)
    end
  | _ => (v, Some json_UnmarshalError)
  end.

End json.

(** ** The wallet package *)

Module wallet.

(** *** hexEncodedCiphertext *)

Definition hexEncodedCiphertext := list byte.

Definition MarshalJSON (c : hexEncodedCiphertext) : result (list byte) :=
  json.Marshal (hex.EncodeToString c).

(** [UnmarshalJSON]: the new value of the receiver [c] and the error.
    [hexString] starts as the empty string; the receiver is assigned only
    when [json.Unmarshal] succeeded, and then also on a hex error. *)
Definition UnmarshalJSON (c : hexEncodedCiphertext) (data : list byte)
  : hexEncodedCiphertext * option error :=
  match json.Unmarshal data [] with
  | (_, Some err) => (c, Some err)
  | (hexString, None) => hex.DecodeString hexString
  end.

(** *** Wallet construction *)

(** What the constructors use from outside [wallet.go]: the key pair type
    and the key-derivation calls of the package, the constant and the clock
    of [common], and [bip39].  A call that returns [(T, error)] yields a
    value or the message of its error. *)
Class Deps : Type := {
  EDKeyPair : Type;
  MaxAccountsPerWallet : Z;
  NowTimeString : gostring;
  bip39_IsMnemonicValid : gostring -> bool;
  bip39_NewSeed : gostring -> gostring -> list byte;
  NewMasterKeyPair : list byte -> EDKeyPair + string;
  NewMasterKeyPairFromLedger : EDKeyPair + string;
  NewChildKeyPair : EDKeyPair -> list byte -> Z -> EDKeyPair + string
}.

Section Wallet.

Context {D : Deps}.

(** The calls a wallet constructor makes, in the order it makes them. *)
Inductive call : Type :=
| call_IsMnemonicValid (m : gostring)
| call_NewSeed (m passphrase : gostring)
| call_NewMasterKeyPair (seed : list byte)
| call_NewMasterKeyPairFromLedger
| call_NewChildKeyPair (master : EDKeyPair) (seed : list byte) (i : Z)
| call_NowTimeString.

(** A computation: its outcome and the calls it made. *)
Definition M (A : Type) : Type := (result A * list call)%type.

Definition ret {A} (a : A) : M A := (Ok a, []).

Definition fail {A} (e : error) : M A := (Err e, []).

Definition bind {A B} (c : M A) (k : A -> M B) : M B :=
  match c with
  | (Ok a, t) => let (r, t') := k a in (r, t ++ t')
  | (Err e, t) => (Err e, t)
  | (Panic msg, t) => (Panic msg, t)
  end.

(** A call that returns [(T, error)], and a call that returns a value. *)
Definition calling {A} (c : call) (r : A + string) : M A :=
  match r with
  | inl a => (Ok a, [c])
  | inr msg => (Err (errExternal msg), [c])
  end.

Definition calling_pure {A} (c : call) (a : A) : M A := (Ok a, [c]).

Notation "x <- c ;; k" := (bind c (fun x => k))
  (at level 61, c at next level, right associativity).

Record walletMetadata : Type := {
  DisplayName : gostring;
  Created : gostring;
  GenesisID : gostring
}.

Record walletSecrets : Type := {
  Mnemonic : gostring;
  MasterKeypair : EDKeyPair;
  Accounts : list EDKeyPair
}.

Record Wallet : Type := {
  Meta : walletMetadata;
  Secrets : walletSecrets
}.

Definition walletFromMnemonicAndAccounts (m : gostring) (masterKp : EDKeyPair)
    (kp : list EDKeyPair) : M Wallet :=
  created <- calling_pure call_NowTimeString NowTimeString ;;
  ret {| Meta := {| DisplayName := str "Main Wallet";
                    Created := created;
                    GenesisID := [] |};
         Secrets := {| Mnemonic := m;
                       MasterKeypair := masterKp;
                       Accounts := kp |} |}.

(** The loop [for i := 0; i < n; i++] of [accountsFromMaster], by the
    number [turns = n - i] of turns left. *)
Fixpoint accountsFromMaster_loop (masterKeypair : EDKeyPair)
    (masterSeed : list byte) (turns : nat) (i : Z)
    (accounts : list EDKeyPair) : M (list EDKeyPair) :=
  match turns with
  | O => ret accounts
  | S turns' =>
    acct <- calling (call_NewChildKeyPair masterKeypair masterSeed i)
                    (NewChildKeyPair masterKeypair masterSeed i) ;;
    accountsFromMaster_loop masterKeypair masterSeed turns' (i + 1)
                            (accounts ++ [acct])
  end.

(** [make([]*EDKeyPair, 0, n)] panics on a negative capacity. *)
Definition accountsFromMaster (masterKeypair : EDKeyPair)
    (masterSeed : list byte) (n : Z) : M (list EDKeyPair) :=
  if (n <? 0)%Z then (Panic "makeslice: cap out of range", [])
  else accountsFromMaster_loop masterKeypair masterSeed (Z.to_nat n) 0 [].

Definition NewMultiWalletFromMnemonic (m : gostring) (n : Z) : M Wallet :=
  if ((n <? 0) || (n >? MaxAccountsPerWallet))%Z then fail errInvalidAccounts
  else
    (* bip39 lib doesn't properly validate whitespace *)
    let expected := strings.Join (strings.Fields m) (str " ") in
    if gostring_neqb m expected then fail errWhitespace
    else
      (* this checks the number of words and the checksum. *)
      valid <- calling_pure (call_IsMnemonicValid m) (bip39_IsMnemonicValid m) ;;
      if negb valid then fail errInvalidMnemonic
      else
        seed <- calling_pure (call_NewSeed m []) (bip39_NewSeed m []) ;;
        masterKeyPair <- calling (call_NewMasterKeyPair seed)
                                 (NewMasterKeyPair seed) ;;
        accounts <- accountsFromMaster masterKeyPair seed n ;;
        walletFromMnemonicAndAccounts m masterKeyPair accounts.

Definition NewMultiWalletFromLedger (n : Z) : M Wallet :=
  if ((n <? 0) || (n >? MaxAccountsPerWallet))%Z then fail errInvalidAccounts
  else
    masterKeyPair <- calling call_NewMasterKeyPairFromLedger
                             NewMasterKeyPairFromLedger ;;
    (* seed is not used in case of ledger *)
    accounts <- accountsFromMaster masterKeyPair [] n ;;
    walletFromMnemonicAndAccounts (str "(none)") masterKeyPair accounts.

End Wallet.

(** *** Addresses *)

(** [core.PublicKey] is an array of 32 bytes, [core.Address] one of 24. *)
Definition PublicKey := list byte.
Definition Address := list byte.

Definition PublicKeySize : nat := 32.

(** The two implementations of [scale.Encodable] passed to
    [core.ComputePrincipal]. *)
Inductive SpawnArguments : Type :=
| walletTemplate_SpawnArguments (PublicKey : list byte)
| multisig_SpawnArguments (Required : byte) (PublicKeys : list PublicKey).

(** The package-level state of [common/types]. *)
Record globals : Type := { networkHrp : gostring }.

Definition SetNetworkHRP (hrp : gostring) (g : globals) : globals :=
  {| networkHrp := hrp |}.

(** The built-in [copy]: the destination after copying
    [min(len(dst), len(src))] elements. *)
Fixpoint copy {A} (dst src : list A) : list A :=
  match dst, src with
  | _ :: dst', x :: src' => x :: copy dst' src'
  | _, _ => dst
  end.

(** [uint8] values and the conversion [uint8(x)] of an [int]. *)
Definition uint8_val (b : byte) : Z := Z.of_N (Byte.to_N b).
Definition uint8_of_int (x : Z) : Z := (x mod 256)%Z.

(** What address computation uses from [go-spacemesh]:
    [core.ComputePrincipal], the template addresses, and the bech32
    encoding of an address under a network prefix. *)
Class Genvm : Type := {
  ComputePrincipal : Address -> SpawnArguments -> Address;
  walletTemplate_TemplateAddress : Address;
  multisig_TemplateAddress : Address;
  bech32_Encode : gostring -> Address -> gostring
}.

Section Addresses.

Context {G : Genvm}.

(** [Address.String] reads the network prefix of the package state. *)
Definition Address_String (a : Address) (g : globals) : gostring :=
  bech32_Encode (networkHrp g) a.

(** [PubkeyToAddress]: the address string and the package state after the
    call. *)
Definition PubkeyToAddress (pubkey : list byte) (hrp : gostring) (g : globals)
  : gostring * globals :=
  let g := SetNetworkHRP hrp g in
  let key := copy (repeat x00 PublicKeySize) pubkey in
  let walletArgs := walletTemplate_SpawnArguments key in
  let walletAddress :=
    ComputePrincipal walletTemplate_TemplateAddress walletArgs in
  (Address_String walletAddress g, g).

Definition SpawnMultiSig (threshold : byte) (participants : list PublicKey)
  : result Address :=
  let numParticipants := Z.of_nat (length participants) in
  if ((uint8_val threshold <? 1)
      || (uint8_val threshold >? uint8_of_int numParticipants))%Z
  then Err errInvalidThreshold
  else if (numParticipants <=? 1)%Z then Err errInvalidParticipants
  else
    let multisigArgs := multisig_SpawnArguments threshold participants in
    let multisigAddress :=
      ComputePrincipal multisig_TemplateAddress multisigArgs in
    Ok multisigAddress.

End Addresses.

(** *** A wallet on a fresh mnemonic *)

(** [ed25519.SeedSize]. *)
Definition ed25519_SeedSize : Z := 32.

(** What [NewMultiWalletRandomMnemonic] uses from [bip39]: the entropy
    source and the encoding of entropy as a phrase.  Each yields a value
    or the message of its error. *)
Class Bip39Gen : Type := {
  bip39_NewEntropy : Z -> list byte + string;
  bip39_NewMnemonic : list byte -> gostring + string
}.

Section Random.

Context {D : Deps} {R : Bip39Gen}.

(** The calls of [NewMultiWalletRandomMnemonic]: its own two, and those of
    the constructor it ends with. *)
Inductive random_call : Type :=
| call_NewEntropy (bitSize : Z)
| call_NewMnemonic (entropy : list byte)
| call_of_constructor (c : call).

Definition NewMultiWalletRandomMnemonic (n : Z)
  : result Wallet * list random_call :=
  (* generate a new, random mnemonic *)
  match bip39_NewEntropy (ed25519_SeedSize * 8) with
  | inr msg =>
    (Err (errExternal msg), [call_NewEntropy (ed25519_SeedSize * 8)])
  | inl e =>
    match bip39_NewMnemonic e with
    | inr msg =>
      (Err (errExternal msg),
       [call_NewEntropy (ed25519_SeedSize * 8); call_NewMnemonic e])
    | inl m =>
      let (r, t) := NewMultiWalletFromMnemonic m n in
      (r, call_NewEntropy (ed25519_SeedSize * 8) :: call_NewMnemonic e
          :: map call_of_constructor t)
    end
  end.

(** The method [Mnemonic] of a wallet. *)
Definition Wallet_Mnemonic (w : Wallet) : gostring := Mnemonic (Secrets w).

End Random.

End wallet.

(** ** Concrete collaborators

    Stand-ins for the calls outside [wallet.go], to run the definitions on
    concrete inputs. *)

Module example.

(** Key pairs are numbers; the mnemonic check counts twelve fields; child
    derivation works for the indices below 3 and fails from 3 on. *)
Definition deps : wallet.Deps := {|
  wallet.EDKeyPair := Z;
  wallet.MaxAccountsPerWallet := 128;
  wallet.NowTimeString := str "2022-11-01T10-00-00.000Z";
  wallet.bip39_IsMnemonicValid :=
    fun m => (length (strings.Fields m) =? 12)%nat;
  wallet.bip39_NewSeed := fun m passphrase => m ++ passphrase;
  wallet.NewMasterKeyPair := fun seed => inl 0%Z;
  wallet.NewMasterKeyPairFromLedger := inl 0%Z;
  wallet.NewChildKeyPair :=
    fun master seed i =>
      if (i <? 3)%Z then inl (master + i + 1)%Z
      else inr "derivation failed"%string
|}.

Definition genvm : wallet.Genvm := {|
  wallet.ComputePrincipal :=
    fun template args =>
      match args with
      | wallet.walletTemplate_SpawnArguments key => firstn 24 (key ++ template)
      | wallet.multisig_SpawnArguments required keys =>
        firstn 24 (required :: concat keys ++ template)
      end;
  wallet.walletTemplate_TemplateAddress := repeat x00 23 ++ [x01];
  wallet.multisig_TemplateAddress := repeat x00 23 ++ [x02];
  wallet.bech32_Encode := fun hrp a => hrp ++ x31 :: hex.EncodeToString a
|}.

Definition p1 : wallet.PublicKey := repeat x11 32.
Definition p2 : wallet.PublicKey := repeat x22 32.

Definition twelve_words : gostring :=
  str "abandon abandon abandon abandon abandon abandon abandon abandon abandon abandon abandon about".

(** The same twelve words with a doubled space after the first, and with
    a space at the end. *)
Definition twelve_words_doubled : gostring :=
  str "abandon  abandon abandon abandon abandon abandon abandon abandon abandon abandon abandon about".

Definition twelve_words_trailing : gostring :=
  str "abandon abandon abandon abandon abandon abandon abandon abandon abandon abandon abandon about ".

Definition three_words : gostring := str "abandon ability able".

(** An entropy source that works, and one that fails. *)
Definition gen : wallet.Bip39Gen := {|
  wallet.bip39_NewEntropy := fun bitSize => inl (repeat x00 (Z.to_nat (bitSize / 8)));
  wallet.bip39_NewMnemonic := fun entropy => inl twelve_words
|}.

Definition gen_failing : wallet.Bip39Gen := {|
  wallet.bip39_NewEntropy := fun bitSize => inr "no entropy"%string;
  wallet.bip39_NewMnemonic := fun entropy => inl twelve_words
|}.

(** Collaborators whose ledger does not answer. *)
Definition deps_no_ledger : wallet.Deps := {|
  wallet.EDKeyPair := Z;
  wallet.MaxAccountsPerWallet := 128;
  wallet.NowTimeString := str "2022-11-01T10-00-00.000Z";
  wallet.bip39_IsMnemonicValid :=
    fun m => (length (strings.Fields m) =? 12)%nat;
  wallet.bip39_NewSeed := fun m passphrase => m ++ passphrase;
  wallet.NewMasterKeyPair := fun seed => inr "bad seed"%string;
  wallet.NewMasterKeyPairFromLedger := inr "ledger not connected"%string;
  wallet.NewChildKeyPair := fun master seed i => inl (master + i + 1)%Z
|}.

End example.

(** The indices [i, i+1, ...] of [turns] consecutive turns of a loop. *)
Fixpoint indices (i : Z) (turns : nat) : list Z :=
  match turns with
  | O => []
  | S turns' => i :: indices (i + 1) turns'
  end.

(** ** What the byte-level claims speak of *)

(** The first 32 bytes of a key, zero-padded on the right to 32 bytes. *)
Definition first32_zero_padded (pk : list byte) : list byte :=
  firstn 32 pk ++ repeat x00 (32 - length pk).

(** ASCII case mapping of a byte. *)
Definition ascii_lower (c : byte) : byte :=
  let v := byte_val c in
  if ((0x41 <=? v) && (v <=? 0x5A))%N then byte_of_N (v + 32) else c.

Definition ascii_upper (c : byte) : byte :=
  let v := byte_val c in
  if ((0x61 <=? v) && (v <=? 0x7A))%N then byte_of_N (v - 32) else c.

(** A well-formed hex string: an even number of hex digits. *)
Definition well_formed_hex (s : gostring) : bool :=
  Nat.even (length s) && forallb json.isHex s.

(** ** Phrases and their spacing *)

(** A word: not empty, and without any ASCII white-space byte. *)
Definition word (w : gostring) : Prop :=
  w <> [] /\ Forall (fun b => strings.asciiSpace b = false) w.

(** Leading, trailing or doubled ASCII white space in a phrase. *)
Definition leading_space (m : gostring) : Prop :=
  exists b rest, m = b :: rest /\ strings.asciiSpace b = true.

Definition trailing_space (m : gostring) : Prop :=
  exists init b, m = init ++ [b] /\ strings.asciiSpace b = true.

Definition doubled_space (m : gostring) : Prop :=
  exists a b1 b2 c,
    m = a ++ b1 :: b2 :: c
    /\ strings.asciiSpace b1 = true /\ strings.asciiSpace b2 = true.

(** The scan of a phrase whose ASCII white space is single [x20] bytes
    between words: [after_space] tells that the previous byte was a space
    (or that the scan is at the front). *)
Fixpoint single_spaced (after_space : bool) (m : gostring) : bool :=
  match m with
  | [] => negb after_space
  | b :: rest =>
    if strings.asciiSpace b
    then Byte.eqb b x20 && negb after_space && single_spaced true rest
    else single_spaced false rest
  end.

(** The open span and the closed spans of the loops hold words only. *)
Definition words_state (st : option gostring * list gostring) : Prop :=
  (forall w, fst st = Some w -> word w) /\ Forall word (snd st).

(** ** What the further properties speak of *)

(** A JSON string literal with the bytes [s] between its quotes. *)
Definition json_quoted (s : gostring) : list byte := x22 :: s ++ [x22].

(** The wallet a constructor returns for a mnemonic, a master key pair
    and accounts. *)
Definition wallet_of {D : wallet.Deps} (m : gostring)
    (master : wallet.EDKeyPair) (accounts : list wallet.EDKeyPair)
  : wallet.Wallet :=
  {| wallet.Meta := {| wallet.DisplayName := str "Main Wallet";
                       wallet.Created := wallet.NowTimeString;
                       wallet.GenesisID := [] |};
     wallet.Secrets := {| wallet.Mnemonic := m;
                          wallet.MasterKeypair := master;
                          wallet.Accounts := accounts |} |}.

(** The accounts [kps] are the children of [master] and [seed] for the
    indices [0 .. len kps - 1], in order. *)
Definition derived_in_order {D : wallet.Deps} (master : wallet.EDKeyPair)
    (seed : list byte) (kps : list wallet.EDKeyPair) : Prop :=
  Forall2 (fun i kp => wallet.NewChildKeyPair master seed i = inl kp)
          (indices 0 (length kps)) kps.

(** A call into [bip39] or the seed-based master derivation. *)
Definition mnemonic_call {D : wallet.Deps} (c : wallet.call) : bool :=
  match c with
  | wallet.call_IsMnemonicValid _ => true
  | wallet.call_NewSeed _ _ => true
  | wallet.call_NewMasterKeyPair _ => true
  | _ => false
  end.

(** A non-empty word of ASCII bytes without white space. *)
Definition ascii_word (w : gostring) : bool :=
  negb (length w =? 0)%nat
  && forallb (fun b => (byte_val b <? utf8.RuneSelf)%N
                       && negb (strings.asciiSpace b)) w.

(** * Properties *)

Unset Implicit Arguments.

(** ** Fields and Join *)

Section FieldsProperties.

Lemma high_byte_not_space (b : byte) :
  (byte_val b <? utf8.RuneSelf)%N = false -> strings.asciiSpace b = false.
Proof. destruct b; intros H; try reflexivity; vm_compute in H; discriminate. Qed.

Lemma ascii_rune_not_space (b : byte) :
  unicode.IsSpace (byte_val b) = false -> strings.asciiSpace b = false.
Proof. destruct b; intros H; try reflexivity; vm_compute in H; discriminate. Qed.

Lemma first_lo (s0 : N) (sz : nat) (lo hi : N) :
  utf8.first s0 = Some (sz, lo, hi) ->
  (0x80 <= lo)%N /\ (sz = 2 \/ sz = 3 \/ sz = 4)%nat.
Proof.
  unfold utf8.first.
  repeat match goal with
         | |- context [if ?c then _ else _] => destruct c
         end; intros H; inversion H; subst; split; lia.
Qed.

Lemma in_range_not_space (lo hi : N) (b : byte) :
  (0x80 <= lo)%N -> utf8.out_of lo hi b = false -> strings.asciiSpace b = false.
Proof.
  intros Hlo Hout. apply high_byte_not_space.
  unfold utf8.out_of in Hout. apply orb_false_iff in Hout as [H1 _].
  apply N.ltb_ge in H1. apply N.ltb_ge. unfold utf8.RuneSelf. lia.
Qed.

(** A rune takes at least one byte and no more than there are. *)
Lemma DecodeRuneInString_size (s : gostring) :
  s <> [] ->
  (1 <= snd (utf8.DecodeRuneInString s) <= length s)%nat.
Proof.
  intros Hs. destruct s as [|b0 t0]; [congruence|].
  unfold utf8.DecodeRuneInString.
  repeat match goal with
         | |- context [if ?c then _ else _] => destruct c
         | |- context [match ?l with [] => _ | _ :: _ => _ end] => destruct l
         | |- context [match ?o with Some _ => _ | None => _ end] =>
           destruct o as [[[? ?] ?]|]
         end; simpl; lia.
Qed.

Lemma skipn_rune_shorter (s : gostring) (turns : nat) :
  s <> [] -> (length s <= S turns)%nat ->
  (length (skipn (snd (utf8.DecodeRuneInString s)) s) <= turns)%nat.
Proof.
  intros Hs Hlen. pose proof (DecodeRuneInString_size s Hs).
  rewrite length_skipn. lia.
Qed.

(** The bytes of a rune that is not a space hold no ASCII white space. *)
Lemma DecodeRuneInString_chunk (s : gostring) (r : N) (size : nat) :
  s <> [] ->
  utf8.DecodeRuneInString s = (r, size) ->
  unicode.IsSpace r = false ->
  firstn size s <> []
  /\ Forall (fun b => strings.asciiSpace b = false) (firstn size s).
Proof.
  intros Hs Hdec Hsp. destruct s as [|b0 t0]; [congruence|].
  unfold utf8.DecodeRuneInString in Hdec.
  destruct (byte_val b0 <? utf8.RuneSelf)%N eqn:Hb0.
  - inversion Hdec; subst. simpl. split; [discriminate|].
    constructor; [|constructor]. now apply ascii_rune_not_space.
  - pose proof (high_byte_not_space b0 Hb0) as H0.
    assert (Hone : [b0] <> [] /\
                   Forall (fun b => strings.asciiSpace b = false) [b0]).
    { split; [discriminate|]. constructor; [assumption|constructor]. }
    destruct (utf8.first (byte_val b0)) as [[[sz lo] hi]|] eqn:Hfirst;
      [|inversion Hdec; subst; exact Hone].
    destruct (first_lo _ _ _ _ Hfirst) as [Hlo _].
    destruct (length (b0 :: t0) <? sz)%nat;
      [inversion Hdec; subst; exact Hone|].
    destruct t0 as [|b1 t1]; [inversion Hdec; subst; exact Hone|].
    destruct (utf8.out_of lo hi b1) eqn:H1;
      [inversion Hdec; subst; exact Hone|].
    pose proof (in_range_not_space _ _ _ Hlo H1) as Hb1.
    destruct (sz <=? 2)%nat.
    { inversion Hdec; subst. simpl. split; [discriminate|].
      repeat constructor; assumption. }
    destruct t1 as [|b2 t2]; [inversion Hdec; subst; exact Hone|].
    destruct (utf8.out_of utf8.locb utf8.hicb b2) eqn:H2;
      [inversion Hdec; subst; exact Hone|].
    assert (Hb2 : strings.asciiSpace b2 = false).
    { eapply in_range_not_space; [|exact H2]. unfold utf8.locb; lia. }
    destruct (sz <=? 3)%nat.
    { inversion Hdec; subst. simpl. split; [discriminate|].
      repeat constructor; assumption. }
    destruct t2 as [|b3 t3]; [inversion Hdec; subst; exact Hone|].
    destruct (utf8.out_of utf8.locb utf8.hicb b3) eqn:H3;
      [inversion Hdec; subst; exact Hone|].
    assert (Hb3 : strings.asciiSpace b3 = false).
    { eapply in_range_not_space; [|exact H3]. unfold utf8.locb; lia. }
    inversion Hdec; subst. simpl. split; [discriminate|].
    repeat constructor; assumption.
Qed.

Lemma word_snoc (w : gostring) (chunk : gostring) :
  word w -> Forall (fun b => strings.asciiSpace b = false) chunk ->
  word (w ++ chunk).
Proof.
  intros [Hne Hw] Hc. split.
  - destruct w; [congruence|discriminate].
  - apply Forall_app. split; assumption.
Qed.

Lemma FieldsFunc_loop_step (turns : nat) (f : N -> bool) (b : byte)
    (t : gostring) (start : option gostring) (spans : list gostring) :
  strings.FieldsFunc_loop (S turns) f (b :: t) start spans
  = let (rune, size) := utf8.DecodeRuneInString (b :: t) in
    let rest := skipn size (b :: t) in
    if f rune then
      match start with
      | Some w => strings.FieldsFunc_loop turns f rest None (spans ++ [w])
      | None => strings.FieldsFunc_loop turns f rest None spans
      end
    else
      match start with
      | Some w =>
        strings.FieldsFunc_loop turns f rest
          (Some (w ++ firstn size (b :: t))) spans
      | None =>
        strings.FieldsFunc_loop turns f rest (Some (firstn size (b :: t))) spans
      end.
Proof. reflexivity. Qed.

(** [length s] turns are enough for the loop of [FieldsFunc]: more turns
    change nothing. *)
Lemma FieldsFunc_loop_enough (f : N -> bool) :
  forall (t1 t2 : nat) (s : gostring) (start : option gostring)
         (spans : list gostring),
    (length s <= t1)%nat -> (length s <= t2)%nat ->
    strings.FieldsFunc_loop t1 f s start spans
    = strings.FieldsFunc_loop t2 f s start spans.
Proof.
  induction t1 as [|t1 IH]; intros t2 s start spans H1 H2.
  - destruct s; [|simpl in H1; lia]. destruct t2; reflexivity.
  - destruct s as [|b t]; [destruct t2; reflexivity|].
    destruct t2 as [|t2]; [simpl in H2; lia|].
    rewrite !FieldsFunc_loop_step.
    pose proof (skipn_rune_shorter (b :: t) t1 ltac:(discriminate) H1) as L1.
    pose proof (skipn_rune_shorter (b :: t) t2 ltac:(discriminate) H2) as L2.
    destruct (utf8.DecodeRuneInString (b :: t)) as [r size]. simpl snd in *.
    cbv zeta. destruct (f r); destruct start; apply IH; assumption.
Qed.

Lemma words_state_close (w : gostring) (spans : list gostring) :
  words_state (Some w, spans) -> words_state (None, spans ++ [w]).
Proof.
  intros [Hst Hsp]. split; [discriminate|]. simpl in *.
  apply Forall_app. split; [assumption|].
  constructor; [|constructor]. now apply Hst.
Qed.

Lemma words_state_extend (start : option gostring) (spans : list gostring)
    (chunk : gostring) :
  words_state (start, spans) ->
  chunk <> [] -> Forall (fun b => strings.asciiSpace b = false) chunk ->
  words_state (Some (match start with
                     | Some w => w ++ chunk
                     | None => chunk
                     end), spans).
Proof.
  intros [Hst Hsp] Hne Hc. split; [|exact Hsp]. simpl in *.
  intros w' Hw'. injection Hw' as <-. destruct start as [w|].
  - apply word_snoc; [now apply Hst|assumption].
  - split; assumption.
Qed.

Lemma last_field_words (start : option gostring) (spans : list gostring) :
  words_state (start, spans) -> Forall word (strings.last_field start spans).
Proof.
  intros H. destruct start as [w|]; simpl.
  - exact (proj2 (words_state_close w spans H)).
  - exact (proj2 H).
Qed.

Lemma FieldsFunc_loop_words :
  forall (turns : nat) (s : gostring) (start : option gostring)
         (spans : list gostring),
    words_state (start, spans) ->
    words_state (strings.FieldsFunc_loop turns unicode.IsSpace s start spans).
Proof.
  induction turns as [|turns IH]; intros s start spans Hst.
  - destruct s; exact Hst.
  - destruct s as [|b t]; [exact Hst|].
    rewrite FieldsFunc_loop_step.
    destruct (utf8.DecodeRuneInString (b :: t)) as [r size] eqn:Hdec.
    cbv zeta. destruct (unicode.IsSpace r) eqn:Hr.
    + destruct start as [w|]; apply IH; [|exact Hst].
      now apply words_state_close.
    + destruct (DecodeRuneInString_chunk (b :: t) r size ltac:(discriminate)
                  Hdec Hr) as [Hne Hchunk].
      pose proof (words_state_extend start spans _ Hst Hne Hchunk) as Hext.
      destruct start as [w|]; apply IH; exact Hext.
Qed.

Lemma Fields_ascii_words :
  forall (s : gostring) (field : option gostring) (a : list gostring),
    words_state (field, a) -> words_state (strings.Fields_ascii s field a).
Proof.
  induction s as [|b rest IH]; intros field a Hst.
  - destruct field; exact Hst.
  - destruct field as [w|]; simpl; destruct (strings.asciiSpace b) eqn:Hb;
      apply IH.
    + now apply words_state_close.
    + apply (words_state_extend (Some w) a [b] Hst); [discriminate|].
      constructor; [assumption|constructor].
    + exact Hst.
    + apply (words_state_extend None a [b] Hst); [discriminate|].
      constructor; [assumption|constructor].
Qed.

(** Every field of a phrase is a word. *)
Lemma Fields_words (m : gostring) : Forall word (strings.Fields m).
Proof.
  assert (H0 : words_state (None, [])) by (split; [discriminate|constructor]).
  unfold strings.Fields, strings.FieldsFunc.
  destruct (forallb _ m).
  - pose proof (Fields_ascii_words m None [] H0) as H.
    destruct (strings.Fields_ascii m None []). now apply last_field_words.
  - pose proof (FieldsFunc_loop_words (length m) m None [] H0) as H.
    destruct (strings.FieldsFunc_loop _ _ _ _ _). now apply last_field_words.
Qed.


(** *** The fast path agrees with [FieldsFunc] *)

Lemma DecodeRuneInString_ascii (b : byte) (t : gostring) :
  (byte_val b <? utf8.RuneSelf)%N = true ->
  utf8.DecodeRuneInString (b :: t) = (byte_val b, 1%nat).
Proof. intros H. unfold utf8.DecodeRuneInString. now rewrite H. Qed.

Lemma IsSpace_ascii (b : byte) :
  (byte_val b <? utf8.RuneSelf)%N = true ->
  unicode.IsSpace (byte_val b) = strings.asciiSpace b.
Proof. destruct b; intros H; try reflexivity; vm_compute in H; discriminate. Qed.

Lemma FieldsFunc_loop_ascii :
  forall (s : gostring) (turns : nat) (start : option gostring)
         (spans : list gostring),
    forallb (fun b => (byte_val b <? utf8.RuneSelf)%N) s = true ->
    (length s <= turns)%nat ->
    strings.FieldsFunc_loop turns unicode.IsSpace s start spans
    = strings.Fields_ascii s start spans.
Proof.
  induction s as [|b t IH]; intros turns start spans Hascii Hlen.
  - destruct turns, start; reflexivity.
  - destruct turns as [|turns]; [simpl in Hlen; lia|].
    simpl in Hascii. apply andb_true_iff in Hascii as [Hb Ht].
    rewrite FieldsFunc_loop_step, (DecodeRuneInString_ascii b t Hb).
    cbv zeta. rewrite (IsSpace_ascii b Hb).
    change (skipn 1 (b :: t)) with t. change (firstn 1 (b :: t)) with [b].
    simpl in Hlen.
    destruct start as [w|]; simpl; destruct (strings.asciiSpace b);
      apply IH; try assumption; lia.
Qed.

(** On every input [Fields] is [FieldsFunc] with [unicode.IsSpace]. *)
Lemma Fields_FieldsFunc (s : gostring) :
  strings.Fields s = strings.FieldsFunc s unicode.IsSpace.
Proof.
  unfold strings.Fields, strings.FieldsFunc.
  destruct (forallb _ s) eqn:Hascii; [|reflexivity].
  now rewrite (FieldsFunc_loop_ascii s (length s) None [] Hascii (le_n _)).
Qed.

(** *** Words joined by single spaces *)

(** In front of an ASCII space, a rune is decoded as at the end of the
    input. *)
Lemma DecodeRuneInString_before_space (u rest : gostring) :
  u <> [] ->
  utf8.DecodeRuneInString (u ++ x20 :: rest) = utf8.DecodeRuneInString u.
Proof.
  intros Hu. destruct u as [|b0 t0]; [congruence|].
  unfold utf8.DecodeRuneInString.
  change ((b0 :: t0) ++ x20 :: rest) with (b0 :: t0 ++ x20 :: rest).
  cbv iota beta zeta.
  destruct (byte_val b0 <? utf8.RuneSelf)%N; [reflexivity|].
  destruct (utf8.first (byte_val b0)) as [[[sz lo] hi]|] eqn:Hfirst;
    [|reflexivity].
  destruct (first_lo _ _ _ _ Hfirst) as [Hlo Hsz].
  assert (Hout : utf8.out_of lo hi x20 = true).
  { unfold utf8.out_of. apply orb_true_iff. left. apply N.ltb_lt.
    change (byte_val x20) with 32%N. lia. }
  assert (Hcb : utf8.out_of utf8.locb utf8.hicb x20 = true) by reflexivity.
  destruct t0 as [|b1 [|b2 [|b3 t3]]];
    destruct Hsz as [ -> | [ -> | -> ] ]; cbn [app length Nat.ltb Nat.leb];
    rewrite ?Hout, ?Hcb;
    repeat match goal with
           | |- context [if ?c then _ else _] => destruct c
           | |- context [match ?l with [] => _ | _ :: _ => _ end] => destruct l
           end; reflexivity.
Qed.

Lemma FieldsFunc_loop_spans (f : N -> bool) (pre : list gostring) :
  forall (turns : nat) (s : gostring) (start : option gostring)
         (spans : list gostring),
    strings.FieldsFunc_loop turns f s start (pre ++ spans)
    = (fst (strings.FieldsFunc_loop turns f s start spans),
       pre ++ snd (strings.FieldsFunc_loop turns f s start spans)).
Proof.
  induction turns as [|turns IH]; intros s start spans.
  - destruct s; reflexivity.
  - destruct s as [|b t]; [reflexivity|].
    rewrite !FieldsFunc_loop_step.
    destruct (utf8.DecodeRuneInString (b :: t)) as [r size]. cbv zeta.
    destruct (f r); destruct start as [w|]; rewrite <- ?app_assoc; apply IH.
Qed.

(** The loop over [u] followed by a space and [rest] is the loop over
    [u], continued over the space and [rest]. *)
Lemma FieldsFunc_loop_before_space (f : N -> bool) (rest : gostring) :
  forall (turns : nat) (u : gostring) (start : option gostring)
         (spans : list gostring),
    (length (u ++ x20 :: rest) <= turns)%nat ->
    strings.FieldsFunc_loop turns f (u ++ x20 :: rest) start spans
    = strings.FieldsFunc_loop (S (length rest)) f (x20 :: rest)
        (fst (strings.FieldsFunc_loop (length u) f u start spans))
        (snd (strings.FieldsFunc_loop (length u) f u start spans)).
Proof.
  remember (strings.FieldsFunc_loop (S (length rest)) f (x20 :: rest))
    as K eqn:HK.
  induction turns as [|turns IH]; intros u start spans Hlen.
  - rewrite length_app in Hlen. simpl in Hlen. lia.
  - destruct u as [|b t].
    + subst K. simpl app. simpl length at 2.
      apply FieldsFunc_loop_enough; simpl in *; lia.
    + change ((b :: t) ++ x20 :: rest) with (b :: t ++ x20 :: rest).
      change (length (b :: t)) with (S (length t)).
      rewrite !FieldsFunc_loop_step.
      change (b :: t ++ x20 :: rest) with ((b :: t) ++ x20 :: rest).
      rewrite (DecodeRuneInString_before_space (b :: t) rest)
        by discriminate.
      pose proof (DecodeRuneInString_size (b :: t) ltac:(discriminate))
        as Hsize.
      destruct (utf8.DecodeRuneInString (b :: t)) as [r size].
      simpl snd in Hsize. cbv zeta.
      assert (Hskip : skipn size ((b :: t) ++ x20 :: rest)
                      = skipn size (b :: t) ++ x20 :: rest).
      { rewrite skipn_app.
        replace (size - length (b :: t))%nat with 0%nat by lia.
        reflexivity. }
      assert (Hfirst : firstn size ((b :: t) ++ x20 :: rest)
                       = firstn size (b :: t)).
      { rewrite firstn_app.
        replace (size - length (b :: t))%nat with 0%nat by lia.
        simpl. apply app_nil_r. }
      rewrite Hskip, Hfirst.
      assert (Hfuel : forall st sp,
                 strings.FieldsFunc_loop (length t) f (skipn size (b :: t)) st sp
                 = strings.FieldsFunc_loop (length (skipn size (b :: t))) f
                     (skipn size (b :: t)) st sp).
      { intros st sp. apply FieldsFunc_loop_enough; [|lia].
        rewrite length_skipn. simpl length in *. lia. }
      assert (Hrest : (length (skipn size (b :: t) ++ x20 :: rest)
                       <= turns)%nat).
      { rewrite length_app, length_skipn in *. simpl length in *. lia. }
      destruct (f r); destruct start as [w|]; rewrite Hfuel;
        apply IH; exact Hrest.
Qed.

(** The loop keeps no more bytes than it reads, and fewer when it ends
    outside a field. *)
Lemma FieldsFunc_loop_measure (f : N -> bool) :
  forall (turns : nat) (s : gostring) (start : option gostring)
         (spans : list gostring),
    (length s <= turns)%nat ->
    let st := strings.FieldsFunc_loop turns f s start spans in
    (length (concat (strings.last_field (fst st) (snd st)))
     <= length (concat (strings.last_field start spans)) + length s)%nat
    /\ (fst st = None -> s <> [] ->
        (length (concat (snd st))
         < length (concat (strings.last_field start spans)) + length s)%nat).
Proof.
  assert (Hclose : forall (w : gostring) (spans : list gostring),
             length (concat (spans ++ [w]))
             = (length (concat spans) + length w)%nat).
  { intros w spans. rewrite concat_app, length_app. simpl.
    now rewrite app_nil_r. }
  induction turns as [|turns IH]; intros s start spans Hlen st.
  - destruct s; [|simpl in Hlen; lia]. subst st. simpl. split; [lia|].
    intros _ H. congruence.
  - destruct s as [|b t].
    { subst st. simpl. split; [lia|]. intros _ H. congruence. }
    subst st. rewrite FieldsFunc_loop_step.
    pose proof (DecodeRuneInString_size (b :: t) ltac:(discriminate))
      as Hsize.
    destruct (utf8.DecodeRuneInString (b :: t)) as [r size].
    simpl snd in Hsize. cbv zeta.
    assert (Hrest : (length (skipn size (b :: t)) <= turns)%nat).
    { rewrite length_skipn. simpl length in *. lia. }
    assert (Hsk : (length (skipn size (b :: t)) + size
                   = length (b :: t))%nat).
    { rewrite length_skipn. lia. }
    assert (Hfn : length (firstn size (b :: t)) = size).
    { rewrite length_firstn. lia. }
    destruct (f r); destruct start as [w|].
    + destruct (IH (skipn size (b :: t)) None (spans ++ [w]) Hrest)
        as [Hle Hlt].
      simpl strings.last_field in *. split; [lia|].
      intros Hnone _.
      destruct (skipn size (b :: t)) as [|c rest'] eqn:Hs'.
      * destruct turns; simpl in *; rewrite ?Hclose in *; lia.
      * specialize (Hlt Hnone ltac:(discriminate)). lia.
    + destruct (IH (skipn size (b :: t)) None spans Hrest) as [Hle Hlt].
      simpl strings.last_field in *. split; [lia|].
      intros Hnone _.
      destruct (skipn size (b :: t)) as [|c rest'] eqn:Hs'.
      * destruct turns; simpl in *; lia.
      * specialize (Hlt Hnone ltac:(discriminate)). lia.
    + destruct (IH (skipn size (b :: t))
                  (Some (w ++ firstn size (b :: t))) spans Hrest)
        as [Hle Hlt].
      simpl strings.last_field in *.
      rewrite !Hclose, ?length_app, ?Hfn in *. split; [lia|].
      intros Hnone _.
      destruct (skipn size (b :: t)) as [|c rest'] eqn:Hs'.
      * destruct turns; simpl in Hnone; discriminate.
      * specialize (Hlt Hnone ltac:(discriminate)). lia.
    + destruct (IH (skipn size (b :: t))
                  (Some (firstn size (b :: t))) spans Hrest)
        as [Hle Hlt].
      simpl strings.last_field in *.
      rewrite !Hclose, ?Hfn in *. split; [lia|].
      intros Hnone _.
      destruct (skipn size (b :: t)) as [|c rest'] eqn:Hs'.
      * destruct turns; simpl in Hnone; discriminate.
      * specialize (Hlt Hnone ltac:(discriminate)). lia.
Qed.


(** A string that is its own single field is read by the loop as one
    open span. *)
Lemma FieldsFunc_loop_single_field (w : gostring) (spans : list gostring) :
  strings.FieldsFunc w unicode.IsSpace = [w] ->
  strings.FieldsFunc_loop (length w) unicode.IsSpace w None spans
  = (Some w, spans).
Proof.
  intros Hw.
  assert (Hne : w <> []).
  { intros ->. vm_compute in Hw. discriminate. }
  rewrite <- (app_nil_r spans) at 1. rewrite FieldsFunc_loop_spans.
  unfold strings.FieldsFunc in Hw.
  destruct (FieldsFunc_loop_measure unicode.IsSpace (length w) w None []
              (le_n _)) as [_ Hlt].
  destruct (strings.FieldsFunc_loop (length w) unicode.IsSpace w None [])
    as [[x|] sp]; simpl in *.
  - destruct sp as [|y sp].
    + simpl in Hw. injection Hw as ->. now rewrite app_nil_r.
    + destruct sp; discriminate.
  - specialize (Hlt eq_refl Hne). rewrite Hw in Hlt. simpl in Hlt.
    rewrite app_nil_r in Hlt. lia.
Qed.

(** Splitting words joined by single spaces gives the words back. *)
Lemma FieldsFunc_Join (ws : list gostring) :
  Forall (fun w => strings.FieldsFunc w unicode.IsSpace = [w]) ws ->
  forall spans,
    (let (start, sp) :=
       strings.FieldsFunc_loop (length (strings.Join ws (str " ")))
         unicode.IsSpace (strings.Join ws (str " ")) None spans in
     strings.last_field start sp) = spans ++ ws.
Proof.
  induction 1 as [|w ws Hw Hws IH]; intros spans.
  - simpl. now rewrite app_nil_r.
  - destruct ws as [|w' ws'].
    + simpl strings.Join. rewrite (FieldsFunc_loop_single_field w spans Hw).
      reflexivity.
    + change (strings.Join (w :: w' :: ws') (str " "))
        with (w ++ x20 :: strings.Join (w' :: ws') (str " ")).
      rewrite FieldsFunc_loop_before_space by apply le_n.
      rewrite (FieldsFunc_loop_single_field w spans Hw).
      simpl fst. simpl snd.
      rewrite FieldsFunc_loop_step.
      change (utf8.DecodeRuneInString
                (x20 :: strings.Join (w' :: ws') (str " ")))
        with (32%N, 1%nat).
      cbv iota beta zeta. change (unicode.IsSpace 32) with true. cbv iota.
      change (skipn 1 (x20 :: strings.Join (w' :: ws') (str " ")))
        with (strings.Join (w' :: ws') (str " ")).
      rewrite IH, <- app_assoc. reflexivity.
Qed.

Lemma Fields_Join (ws : list gostring) :
  Forall (fun w => strings.Fields w = [w]) ws ->
  strings.Fields (strings.Join ws (str " ")) = ws.
Proof.
  intros Hws. rewrite Fields_FieldsFunc. unfold strings.FieldsFunc.
  apply (FieldsFunc_Join ws).
  eapply Forall_impl; [|exact Hws].
  intros w Hw. now rewrite <- Fields_FieldsFunc.
Qed.

(** *** Stray white space *)

Lemma single_spaced_word (w : gostring) :
  Forall (fun b => strings.asciiSpace b = false) w -> w <> [] ->
  forall (p : bool) (rest : gostring),
    single_spaced p (w ++ rest) = single_spaced false rest.
Proof.
  induction 1 as [|b w Hb Hw IH]; intros Hne p rest; [congruence|].
  simpl. rewrite Hb. destruct w as [|b' w'].
  - reflexivity.
  - apply IH. discriminate.
Qed.

(** Words joined by single spaces pass the scan. *)
Lemma Join_single_spaced (ws : list gostring) :
  Forall word ws -> ws <> [] ->
  single_spaced true (strings.Join ws (str " ")) = true.
Proof.
  induction 1 as [|w ws [Hne Hw] Hws IH]; intros Hnil; [congruence|].
  destruct ws as [|w' ws'].
  - simpl. rewrite <- (app_nil_r w).
    rewrite (single_spaced_word w Hw Hne). reflexivity.
  - change (strings.Join (w :: w' :: ws') (str " "))
      with (w ++ str " " ++ strings.Join (w' :: ws') (str " ")).
    rewrite (single_spaced_word w Hw Hne).
    change (str " ") with [x20]. simpl app.
    change (single_spaced false (x20 :: strings.Join (w' :: ws') [x20]))
      with (single_spaced true (strings.Join (w' :: ws') [x20])).
    apply IH. discriminate.
Qed.

Lemma single_spaced_trailing (b : byte) :
  strings.asciiSpace b = true ->
  forall (init : gostring) (p : bool), single_spaced p (init ++ [b]) = false.
Proof.
  intros Hb. induction init as [|c init IH]; intros p; simpl.
  - rewrite Hb. now rewrite andb_false_r.
  - destruct (strings.asciiSpace c); rewrite IH; [apply andb_false_r|reflexivity].
Qed.

Lemma single_spaced_doubled (b1 b2 : byte) (c : gostring) :
  strings.asciiSpace b1 = true -> strings.asciiSpace b2 = true ->
  forall (a : gostring) (p : bool),
    single_spaced p (a ++ b1 :: b2 :: c) = false.
Proof.
  intros H1 H2. induction a as [|x a IH]; intros p; simpl.
  - rewrite H1, H2. simpl. now rewrite !andb_false_r.
  - destruct (strings.asciiSpace x); rewrite IH; [apply andb_false_r|reflexivity].
Qed.

(** A phrase with leading, trailing or doubled white space fails the
    scan, and is not empty. *)
Lemma stray_space_not_single_spaced (m : gostring) :
  leading_space m \/ trailing_space m \/ doubled_space m ->
  m <> [] /\ single_spaced true m = false.
Proof.
  intros [(b & rest & -> & Hb)|[(init & b & -> & Hb)|(a & b1 & b2 & c & -> & H1 & H2)]].
  - split; [discriminate|]. simpl. rewrite Hb. now rewrite andb_false_r.
  - split; [destruct init; discriminate|]. now apply single_spaced_trailing.
  - split; [destruct a; discriminate|]. now apply single_spaced_doubled.
Qed.

(** Rejoining the fields of such a phrase never gives the phrase back. *)
Lemma stray_space_not_canonical (m : gostring) :
  leading_space m \/ trailing_space m \/ doubled_space m ->
  m <> strings.Join (strings.Fields m) (str " ").
Proof.
  intros Hstray Heq.
  destruct (stray_space_not_single_spaced m Hstray) as [Hne Hscan].
  pose proof (Fields_words m) as Hwords.
  destruct (strings.Fields m) as [|w ws] eqn:HF.
  - simpl in Heq. congruence.
  - rewrite Heq in Hscan.
    rewrite Join_single_spaced in Hscan; [discriminate|assumption|discriminate].
Qed.

End FieldsProperties.


(** ** Account derivation and wallet construction *)

Section WalletProperties.

Context {D : wallet.Deps}.

Import wallet.

Local Open Scope Z_scope.

Lemma indices_length (turns : nat) (i : Z) : length (indices i turns) = turns.
Proof.
  revert i; induction turns as [|t IH]; intros i; simpl; [reflexivity|].
  now rewrite IH.
Qed.

(** When every derivation of a run of turns succeeds, the loop appends one
    child per index, in order, and calls nothing else. *)
Lemma accountsFromMaster_loop_ok (master : EDKeyPair) (seed : list byte) :
  forall (turns : nat) (i : Z) (accounts : list EDKeyPair),
    (forall j, i <= j < i + Z.of_nat turns ->
               exists kp, NewChildKeyPair master seed j = inl kp) ->
    exists kps,
      accountsFromMaster_loop master seed turns i accounts
      = (Ok (accounts ++ kps),
         map (call_NewChildKeyPair master seed) (indices i turns))
      /\ Forall2 (fun j kp => NewChildKeyPair master seed j = inl kp)
                 (indices i turns) kps.
Proof.
  induction turns as [|t IH]; intros i accounts Hall.
  - exists []. simpl. rewrite app_nil_r. split; [reflexivity|constructor].
  - destruct (Hall i ltac:(lia)) as [kp Hkp].
    destruct (IH (i + 1) (accounts ++ [kp])) as [kps [Hrun Hkps]].
    { intros j Hj. apply Hall. lia. }
    exists (kp :: kps). split.
    + simpl. unfold bind, calling. rewrite Hkp, Hrun.
      rewrite <- app_assoc. reflexivity.
    + simpl. constructor; assumption.
Qed.

(** When the derivation at the [k]-th turn is the first to fail, the loop
    stops there with that error. *)
Lemma accountsFromMaster_loop_fail (master : EDKeyPair) (seed : list byte) :
  forall (k turns : nat) (i : Z) (accounts : list EDKeyPair) (msg : string),
    (k < turns)%nat ->
    (forall j, i <= j < i + Z.of_nat k ->
               exists kp, NewChildKeyPair master seed j = inl kp) ->
    NewChildKeyPair master seed (i + Z.of_nat k) = inr msg ->
    accountsFromMaster_loop master seed turns i accounts
    = (Err (errExternal msg),
       map (call_NewChildKeyPair master seed) (indices i (S k))).
Proof.
  induction k as [|k IH]; intros turns i accounts msg Hlt Hall Hfail.
  - destruct turns as [|t]; [lia|].
    simpl. unfold bind, calling.
    change (Z.of_nat 0) with 0 in Hfail. rewrite Z.add_0_r in Hfail.
    rewrite Hfail. reflexivity.
  - destruct turns as [|t]; [lia|].
    destruct (Hall i ltac:(lia)) as [kp Hkp].
    simpl. unfold bind, calling. rewrite Hkp.
    rewrite (IH t (i + 1) (accounts ++ [kp]) msg).
    + reflexivity.
    + lia.
    + intros j Hj. apply Hall. lia.
    + replace (i + 1 + Z.of_nat k) with (i + Z.of_nat (S k)) by lia.
      exact Hfail.
Qed.

Lemma Forall2_indices_nth (P : Z -> EDKeyPair -> Prop) :
  forall (turns : nat) (i : Z) (kps : list EDKeyPair),
    Forall2 P (indices i turns) kps ->
    forall (j : nat) (kp : EDKeyPair),
      nth_error kps j = Some kp -> P (i + Z.of_nat j) kp.
Proof.
  induction turns as [|t IH]; intros i kps HF j kp Hnth.
  - inversion HF; subst. destruct j; discriminate.
  - simpl in HF. inversion HF as [|x y l l' Hxy Hrest]; subst.
    destruct j as [|j]; simpl in Hnth.
    + injection Hnth as <-. now replace (i + Z.of_nat 0) with i by lia.
    + replace (i + Z.of_nat (S j)) with (i + 1 + Z.of_nat j) by lia.
      eapply IH; eassumption.
Qed.

(** No error of a derivation loop is one of the errors created in
    [wallet.go]. *)
Lemma accountsFromMaster_loop_errors (master : EDKeyPair) (seed : list byte) :
  forall (turns : nat) (i : Z) (accounts : list EDKeyPair) (e : error),
    fst (accountsFromMaster_loop master seed turns i accounts) = Err e ->
    exists msg, e = errExternal msg.
Proof.
  induction turns as [|t IH]; intros i accounts e H; simpl in H.
  - discriminate.
  - unfold bind, calling in H.
    destruct (NewChildKeyPair master seed i) as [kp|msg].
    + destruct (accountsFromMaster_loop master seed t (i + 1) (accounts ++ [kp]))
        as [r tr] eqn:Hrun.
      simpl in H. subst r. apply (IH (i + 1) (accounts ++ [kp]) e).
      now rewrite Hrun.
    + simpl in H. injection H as <-. now exists msg.
Qed.

Lemma accountsFromMaster_errors (master : EDKeyPair) (seed : list byte)
    (n : Z) (e : error) :
  fst (accountsFromMaster master seed n) = Err e -> exists msg, e = errExternal msg.
Proof.
  unfold accountsFromMaster. destruct (n <? 0); [discriminate|].
  apply accountsFromMaster_loop_errors.
Qed.

(** A computation fails with an error created in [wallet.go] only when
    one of its steps does. *)
Lemma bind_not_local (A B : Type) (c : M A) (k : A -> M B) (e : error) :
  (forall msg, e <> errExternal msg) ->
  fst c <> Err e ->
  (forall a, fst (k a) <> Err e) ->
  fst (bind c k) <> Err e.
Proof.
  intros _ Hc Hk. unfold bind. destruct c as [[a|e'|msg] t]; simpl in *.
  - specialize (Hk a). destruct (k a). exact Hk.
  - intros H. apply Hc. injection H as ->. reflexivity.
  - discriminate.
Qed.

Lemma calling_not_local (A : Type) (c : call) (r : A + string) (e : error) :
  (forall msg, e <> errExternal msg) -> fst (calling c r) <> Err e.
Proof.
  intros He. destruct r as [a|msg]; simpl; [discriminate|].
  intros H. injection H as <-. now apply (He msg).
Qed.

Lemma accountsFromMaster_not_local (master : EDKeyPair) (seed : list byte)
    (n : Z) (e : error) :
  (forall msg, e <> errExternal msg) ->
  fst (accountsFromMaster master seed n) <> Err e.
Proof.
  intros He H. destruct (accountsFromMaster_errors master seed n e H) as [msg ->].
  now apply (He msg).
Qed.

(** C3: for a count [n] between 0 and [MaxAccountsPerWallet],
    [accountsFromMaster] derives the children of the indices 0 .. n-1 in
    increasing order and returns exactly these [n] key pairs, the one of
    index [i] at position [i]; when the derivation at some index is the
    first to fail, the call stops there and returns that error and no
    account list. *)
Theorem C3_accountsFromMaster_in_order
    (master : EDKeyPair) (seed : list byte) (n : Z) :
  0 <= n <= MaxAccountsPerWallet ->
  ((forall i, 0 <= i < n -> exists kp, NewChildKeyPair master seed i = inl kp) ->
   exists accounts,
     accountsFromMaster master seed n
     = (Ok accounts,
        map (call_NewChildKeyPair master seed) (indices 0 (Z.to_nat n)))
     /\ Z.of_nat (length accounts) = n
     /\ forall (i : nat) (kp : EDKeyPair),
          nth_error accounts i = Some kp ->
          NewChildKeyPair master seed (Z.of_nat i) = inl kp)
  /\ (forall (k : Z) (msg : string),
        0 <= k < n ->
        (forall i, 0 <= i < k ->
                   exists kp, NewChildKeyPair master seed i = inl kp) ->
        NewChildKeyPair master seed k = inr msg ->
        accountsFromMaster master seed n
        = (Err (errExternal msg),
           map (call_NewChildKeyPair master seed)
               (indices 0 (S (Z.to_nat k))))).
Proof.
  intros Hn. unfold accountsFromMaster.
  destruct (n <? 0) eqn:Hneg; [apply Z.ltb_lt in Hneg; lia|].
  split.
  - intros Hall.
    destruct (accountsFromMaster_loop_ok master seed (Z.to_nat n) 0 [])
      as [kps [Hrun Hkps]].
    { intros j Hj. apply Hall. lia. }
    exists kps. simpl in Hrun. split; [exact Hrun|]. split.
    + rewrite <- (Forall2_length Hkps), indices_length. lia.
    + intros i kp Hnth.
      exact (Forall2_indices_nth _ _ _ _ Hkps i kp Hnth).
  - intros k msg Hk Hall Hfail.
    apply (accountsFromMaster_loop_fail master seed (Z.to_nat k)).
    + lia.
    + intros j Hj. apply Hall. lia.
    + simpl. rewrite Z2Nat.id by lia. exact Hfail.
Qed.

(** C4: both wallet constructors fail with the invalid-account-count
    error exactly when [n < 0] or [n > MaxAccountsPerWallet], and then
    without having made any call: no mnemonic validation and no key
    derivation was attempted. *)
Theorem C4_account_count_checked_first (m : gostring) (n : Z) :
  (fst (NewMultiWalletFromMnemonic m n) = Err errInvalidAccounts
   <-> n < 0 \/ n > MaxAccountsPerWallet)
  /\ (fst (NewMultiWalletFromLedger n) = Err errInvalidAccounts
      <-> n < 0 \/ n > MaxAccountsPerWallet)
  /\ (n < 0 \/ n > MaxAccountsPerWallet ->
      NewMultiWalletFromMnemonic m n = (Err errInvalidAccounts, [])
      /\ NewMultiWalletFromLedger n = (Err errInvalidAccounts, [])).
Proof.
  assert (Hguard : ((n <? 0) || (n >? MaxAccountsPerWallet) = true)
                   <-> n < 0 \/ n > MaxAccountsPerWallet).
  { rewrite orb_true_iff, Z.ltb_lt, Z.gtb_ltb, Z.ltb_lt. lia. }
  unfold NewMultiWalletFromMnemonic, NewMultiWalletFromLedger.
  destruct ((n <? 0) || (n >? MaxAccountsPerWallet)) eqn:Hg.
  - pose proof (proj1 Hguard eq_refl) as Hout.
    repeat split; intros; try assumption; reflexivity.
  - assert (Hin : ~ (n < 0 \/ n > MaxAccountsPerWallet)).
    { intros Hout. apply Hguard in Hout. discriminate. }
    split; [|split]; [split|split|]; try (intros Hout; contradiction).
    + intros H. exfalso. revert H.
      unfold gostring_neqb.
      destruct (gostring_eq_dec m _); [|discriminate].
      apply bind_not_local; [discriminate|discriminate|].
      intros valid. destruct valid; simpl negb; cbv iota; [|discriminate].
      apply bind_not_local; [discriminate|discriminate|]. intros seed.
      apply bind_not_local;
        [discriminate|apply calling_not_local; discriminate|].
      intros master.
      apply bind_not_local;
        [discriminate|apply accountsFromMaster_not_local; discriminate|].
      intros accounts. discriminate.
    + intros H. exfalso. revert H.
      apply bind_not_local;
        [discriminate|apply calling_not_local; discriminate|].
      intros master.
      apply bind_not_local;
        [discriminate|apply accountsFromMaster_not_local; discriminate|].
      intros accounts. discriminate.
Qed.

(** C6: with a well-spaced mnemonic that passes the word-count and
    checksum validation and a master key pair that derives, construction
    with [n = 0] succeeds and the wallet has an empty account list; no
    child derivation is called. *)
Theorem C6_zero_accounts (m : gostring) (master : EDKeyPair) :
  0 <= MaxAccountsPerWallet ->
  m = strings.Join (strings.Fields m) (str " ") ->
  bip39_IsMnemonicValid m = true ->
  NewMasterKeyPair (bip39_NewSeed m []) = inl master ->
  NewMultiWalletFromMnemonic m 0
  = (Ok {| Meta := {| DisplayName := str "Main Wallet";
                      Created := NowTimeString;
                      GenesisID := [] |};
           Secrets := {| Mnemonic := m;
                         MasterKeypair := master;
                         Accounts := [] |} |},
     [call_IsMnemonicValid m; call_NewSeed m [];
      call_NewMasterKeyPair (bip39_NewSeed m []); call_NowTimeString])
  /\ accountsFromMaster master (bip39_NewSeed m []) 0 = (Ok [], []).
Proof.
  intros Hmax Hspace Hvalid Hmaster. split; [|reflexivity].
  unfold NewMultiWalletFromMnemonic.
  replace ((0 <? 0) || (0 >? MaxAccountsPerWallet)) with false.
  2:{ symmetry. rewrite orb_false_iff, Z.ltb_ge, Z.gtb_ltb, Z.ltb_ge. lia. }
  unfold gostring_neqb.
  destruct (gostring_eq_dec m _) as [_|Hne]; [|contradiction].
  unfold bind, calling_pure, calling. rewrite Hvalid, Hmaster. reflexivity.
Qed.

(** C1: once the account count is accepted, a phrase that differs from
    its fields rejoined with single spaces fails with the whitespace
    error, before the word-count and checksum validation is consulted
    and whatever it would answer; this covers every phrase with leading,
    trailing or doubled white space.  A phrase that equals its rejoined
    fields, as does every phrase made of words joined by single spaces,
    and fails the word-count and checksum validation fails with the
    invalid-mnemonic error. *)
Theorem C1_mnemonic_validation (m : gostring) (n : Z) :
  0 <= n <= MaxAccountsPerWallet ->
  (m <> strings.Join (strings.Fields m) (str " ") ->
   NewMultiWalletFromMnemonic m n = (Err errWhitespace, []))
  /\ (leading_space m \/ trailing_space m \/ doubled_space m ->
      NewMultiWalletFromMnemonic m n = (Err errWhitespace, []))
  /\ (m = strings.Join (strings.Fields m) (str " ") ->
      bip39_IsMnemonicValid m = false ->
      NewMultiWalletFromMnemonic m n
      = (Err errInvalidMnemonic, [call_IsMnemonicValid m]))
  /\ (forall ws : list gostring,
        Forall (fun w => strings.Fields w = [w]) ws ->
        m = strings.Join ws (str " ") ->
        bip39_IsMnemonicValid m = false ->
        NewMultiWalletFromMnemonic m n
        = (Err errInvalidMnemonic, [call_IsMnemonicValid m])).
Proof.
  intros Hn.
  assert (Hws : m <> strings.Join (strings.Fields m) (str " ") ->
                NewMultiWalletFromMnemonic m n = (Err errWhitespace, [])).
  { intros Hne. unfold NewMultiWalletFromMnemonic.
    replace ((n <? 0) || (n >? MaxAccountsPerWallet)) with false.
    2:{ symmetry. rewrite orb_false_iff, Z.ltb_ge, Z.gtb_ltb, Z.ltb_ge. lia. }
    unfold gostring_neqb.
    destruct (gostring_eq_dec m _) as [Heq|_]; [contradiction|reflexivity]. }
  assert (Hinv : m = strings.Join (strings.Fields m) (str " ") ->
                 bip39_IsMnemonicValid m = false ->
                 NewMultiWalletFromMnemonic m n
                 = (Err errInvalidMnemonic, [call_IsMnemonicValid m])).
  { intros Heq Hinvalid. unfold NewMultiWalletFromMnemonic.
    replace ((n <? 0) || (n >? MaxAccountsPerWallet)) with false.
    2:{ symmetry. rewrite orb_false_iff, Z.ltb_ge, Z.gtb_ltb, Z.ltb_ge. lia. }
    unfold gostring_neqb.
    destruct (gostring_eq_dec m _) as [_|Hne]; [|contradiction].
    unfold bind, calling_pure. rewrite Hinvalid. reflexivity. }
  split; [exact Hws|]. split; [|split; [exact Hinv|]].
  - intros Hstray. apply Hws. now apply stray_space_not_canonical.
  - intros ws Hwords Hm. apply Hinv.
    rewrite Hm at 2. now rewrite (Fields_Join ws Hwords).
Qed.

End WalletProperties.

(** Witnesses of the wallet-construction properties, on the concrete
    collaborators. *)

Lemma C1_mnemonic_validation_witness :
  (0 <= 1 <= 128)%Z
  /\ wallet.bip39_IsMnemonicValid (Deps := example.deps)
       example.twelve_words_doubled = true
  /\ wallet.NewMultiWalletFromMnemonic (D := example.deps)
       example.twelve_words_doubled 1
     = (Err errWhitespace, [])
  /\ wallet.NewMultiWalletFromMnemonic (D := example.deps)
       example.twelve_words_trailing 1
     = (Err errWhitespace, [])
  /\ wallet.NewMultiWalletFromMnemonic (D := example.deps)
       example.three_words 1
     = (Err errInvalidMnemonic,
        [wallet.call_IsMnemonicValid example.three_words]).
Proof.
  assert (H : (0 <= 1 <= @wallet.MaxAccountsPerWallet example.deps)%Z)
    by (simpl; lia).
  split; [exact H|]. split; [reflexivity|].
  destruct (@C1_mnemonic_validation example.deps
              example.twelve_words_doubled 1 H) as [Hd _].
  destruct (@C1_mnemonic_validation example.deps
              example.twelve_words_trailing 1 H) as [_ [Ht _]].
  destruct (@C1_mnemonic_validation example.deps
              example.three_words 1 H) as [_ [_ [Hi _]]].
  split; [|split].
  - apply Hd. intros Heq. vm_compute in Heq. discriminate.
  - apply Ht. right. left.
    exists (removelast example.twelve_words_trailing), x20.
    split; reflexivity.
  - apply Hi; reflexivity.
Defined.

Lemma C3_accountsFromMaster_in_order_witness :
  (0 <= 3 <= 128)%Z
  /\ (exists accounts,
        wallet.accountsFromMaster (D := example.deps) 0%Z [] 3
        = (Ok accounts,
           map (wallet.call_NewChildKeyPair (D := example.deps) 0%Z [])
               [0; 1; 2]%Z)
        /\ Z.of_nat (length accounts) = 3%Z
        /\ forall (i : nat) (kp : Z),
             nth_error accounts i = Some kp ->
             wallet.NewChildKeyPair (Deps := example.deps) 0%Z [] (Z.of_nat i)
             = inl kp)
  /\ wallet.accountsFromMaster (D := example.deps) 0%Z [] 5
     = (Err (errExternal "derivation failed"),
        map (wallet.call_NewChildKeyPair (D := example.deps) 0%Z [])
            [0; 1; 2; 3]%Z).
Proof.
  assert (H3 : (0 <= 3 <= @wallet.MaxAccountsPerWallet example.deps)%Z)
    by (simpl; lia).
  assert (H5 : (0 <= 5 <= @wallet.MaxAccountsPerWallet example.deps)%Z)
    by (simpl; lia).
  assert (Hok : forall i : Z,
             (0 <= i < 3)%Z ->
             exists kp, wallet.NewChildKeyPair (Deps := example.deps) 0%Z [] i
                        = inl kp).
  { intros i Hi. simpl. destruct (i <? 3)%Z eqn:E.
    - eexists; reflexivity.
    - apply Z.ltb_ge in E. lia. }
  split; [exact H3|]. split.
  - exact (proj1 (@C3_accountsFromMaster_in_order example.deps 0%Z [] 3%Z H3) Hok).
  - apply (proj2 (@C3_accountsFromMaster_in_order example.deps 0%Z [] 5%Z H5)
                 3%Z "derivation failed"%string).
    + lia.
    + exact Hok.
    + reflexivity.
Defined.

Lemma C4_account_count_checked_first_witness :
  ((-1 < 0)%Z \/ (-1 > 128)%Z)
  /\ wallet.NewMultiWalletFromMnemonic (D := example.deps)
       example.twelve_words (-1)
     = (Err errInvalidAccounts, [])
  /\ wallet.NewMultiWalletFromLedger (D := example.deps) (-1)
     = (Err errInvalidAccounts, []).
Proof.
  assert (H : (-1 < 0 \/ -1 > @wallet.MaxAccountsPerWallet example.deps)%Z)
    by (left; lia).
  split; [exact H|].
  exact (proj2 (proj2 (@C4_account_count_checked_first example.deps
                         example.twelve_words (-1)%Z)) H).
Defined.

Lemma C6_zero_accounts_witness :
  (0 <= 128)%Z
  /\ example.twelve_words
     = strings.Join (strings.Fields example.twelve_words) (str " ")
  /\ wallet.bip39_IsMnemonicValid (Deps := example.deps) example.twelve_words
     = true
  /\ exists w,
       fst (wallet.NewMultiWalletFromMnemonic (D := example.deps)
              example.twelve_words 0) = Ok w
       /\ wallet.Accounts (wallet.Secrets w) = [].
Proof.
  assert (Hmax : (0 <= @wallet.MaxAccountsPerWallet example.deps)%Z)
    by (simpl; lia).
  assert (Hsp : example.twelve_words
                = strings.Join (strings.Fields example.twelve_words) (str " "))
    by reflexivity.
  split; [exact Hmax|]. split; [exact Hsp|]. split; [reflexivity|].
  rewrite (proj1 (@C6_zero_accounts example.deps example.twelve_words 0%Z
                    Hmax Hsp eq_refl eq_refl)).
  eexists. split; reflexivity.
Defined.

(** ** Addresses and multisig spawn *)

Section AddressProperties.

Context {G : wallet.Genvm}.

Import wallet.

Local Open Scope Z_scope.

Lemma uint8_val_range (b : byte) : 0 <= uint8_val b <= 255.
Proof.
  unfold uint8_val. pose proof (Byte.to_N_bounded b) as H.
  lia.
Qed.

(** The threshold test of [SpawnMultiSig], on the count reduced modulo
    256. *)
Lemma SpawnMultiSig_threshold (t : byte) (ps : list PublicKey) :
  SpawnMultiSig t ps = Err errInvalidThreshold
  <-> uint8_val t < 1 \/ uint8_val t > Z.of_nat (length ps) mod 256.
Proof.
  unfold SpawnMultiSig, uint8_of_int.
  destruct ((uint8_val t <? 1) || (uint8_val t >? Z.of_nat (length ps) mod 256))
    eqn:Hg.
  - split; [intros _|reflexivity].
    apply orb_true_iff in Hg. rewrite Z.ltb_lt, Z.gtb_ltb, Z.ltb_lt in Hg. lia.
  - apply orb_false_iff in Hg. rewrite Z.ltb_ge, Z.gtb_ltb, Z.ltb_ge in Hg.
    split; [|lia].
    destruct (Z.of_nat (length ps) <=? 1); discriminate.
Qed.

(** C9: the threshold is compared with the participant count converted
    to [uint8], that is with the count modulo 256; so a count that is a
    multiple of 256 rejects every threshold, and threshold 1 with exactly
    256 participants, which satisfies [1 <= threshold <= len], fails with
    the invalid-threshold error. *)
Theorem C9_threshold_compared_modulo_256 (t : byte) (ps : list PublicKey) :
  (SpawnMultiSig t ps = Err errInvalidThreshold
   <-> uint8_val t < 1 \/ uint8_val t > Z.of_nat (length ps) mod 256)
  /\ (Z.of_nat (length ps) mod 256 = 0 ->
      SpawnMultiSig t ps = Err errInvalidThreshold)
  /\ (1 <= uint8_val x01 <= Z.of_nat (length (repeat example.p1 256))
      /\ SpawnMultiSig x01 (repeat example.p1 256) = Err errInvalidThreshold).
Proof.
  split; [apply SpawnMultiSig_threshold|]. split.
  - intros Hmod. apply SpawnMultiSig_threshold. rewrite Hmod.
    pose proof (uint8_val_range t). lia.
  - split.
    + rewrite repeat_length. vm_compute. split; discriminate.
    + apply SpawnMultiSig_threshold. right. rewrite repeat_length.
      vm_compute. reflexivity.
Qed.

(** C5: for 2 to 255 participants, [SpawnMultiSig] fails with the
    invalid-threshold error exactly when the threshold is below 1 or
    above the number of participants; otherwise it succeeds, and the
    address is the principal computed from the multisig template, the
    threshold and the participants, hence the same at every call with
    the same inputs. *)
Theorem C5_threshold_validation (t : byte) (ps : list PublicKey) :
  (2 <= length ps <= 255)%nat ->
  (SpawnMultiSig t ps = Err errInvalidThreshold
   <-> uint8_val t < 1 \/ uint8_val t > Z.of_nat (length ps))
  /\ (1 <= uint8_val t <= Z.of_nat (length ps) ->
      SpawnMultiSig t ps
      = Ok (ComputePrincipal multisig_TemplateAddress
              (multisig_SpawnArguments t ps))).
Proof.
  intros Hlen.
  assert (Hmod : Z.of_nat (length ps) mod 256 = Z.of_nat (length ps)).
  { apply Z.mod_small. lia. }
  split.
  - rewrite SpawnMultiSig_threshold, Hmod. reflexivity.
  - intros Ht. unfold SpawnMultiSig, uint8_of_int. rewrite Hmod.
    replace ((uint8_val t <? 1) || (uint8_val t >? Z.of_nat (length ps)))
      with false.
    2:{ symmetry. rewrite orb_false_iff, Z.ltb_ge, Z.gtb_ltb, Z.ltb_ge. lia. }
    replace (Z.of_nat (length ps) <=? 1) with false.
    2:{ symmetry. apply Z.leb_gt. lia. }
    reflexivity.
Qed.

(** C2, as the code has it: a call with fewer than two participants
    always fails; with the invalid-participant-count error when there is
    exactly one participant and the threshold is 1, and with the
    invalid-threshold error in every other case, among them threshold 2
    with one participant. *)
Theorem C2_fewer_than_two_participants (t : byte) (ps : list PublicKey) :
  (length ps < 2)%nat ->
  (length ps = 1%nat /\ uint8_val t = 1 ->
   SpawnMultiSig t ps = Err errInvalidParticipants)
  /\ (~ (length ps = 1%nat /\ uint8_val t = 1) ->
      SpawnMultiSig t ps = Err errInvalidThreshold).
Proof.
  intros Hlen.
  assert (Hmod : Z.of_nat (length ps) mod 256 = Z.of_nat (length ps)).
  { apply Z.mod_small. lia. }
  split.
  - intros [H1 Ht]. unfold SpawnMultiSig, uint8_of_int.
    rewrite Hmod, Ht, H1. reflexivity.
  - intros Hnot. apply SpawnMultiSig_threshold. rewrite Hmod.
    pose proof (uint8_val_range t). lia.
Qed.

(** C7: the address string returned by [PubkeyToAddress] depends only on
    the key and the network prefix, not on the package state before the
    call; called twice in a row, it returns the same string twice. *)
Theorem C7_PubkeyToAddress_deterministic
    (pubkey : list byte) (hrp : gostring) (g1 g2 : globals) :
  fst (PubkeyToAddress pubkey hrp g1) = fst (PubkeyToAddress pubkey hrp g2)
  /\ fst (PubkeyToAddress pubkey hrp (snd (PubkeyToAddress pubkey hrp g1)))
     = fst (PubkeyToAddress pubkey hrp g1).
Proof. split; reflexivity. Qed.

(** The built-in [copy] into a zeroed buffer keeps the first bytes of the
    source and leaves the rest of the buffer zero. *)
Lemma copy_zeroed (n : nat) :
  forall src : list byte,
    copy (repeat x00 n) src = firstn n src ++ repeat x00 (n - length src).
Proof.
  induction n as [|n IH]; intros src.
  - destruct src; reflexivity.
  - destruct src as [|x src]; simpl.
    + reflexivity.
    + now rewrite IH.
Qed.

Lemma first32_zero_padded_length (pk : list byte) :
  length (first32_zero_padded pk) = 32%nat.
Proof.
  unfold first32_zero_padded.
  rewrite length_app, length_firstn, repeat_length. lia.
Qed.

(** C10: [PubkeyToAddress] returns an address for a key of any length:
    the key it hashes is the 32-byte buffer holding the first 32 bytes of
    the input, zero-padded on the right; so two inputs with the same
    padded first 32 bytes get the same address. *)
Theorem C10_PubkeyToAddress_any_length
    (pubkey : list byte) (hrp : gostring) (g : globals) :
  PubkeyToAddress pubkey hrp g
  = (bech32_Encode hrp
       (ComputePrincipal walletTemplate_TemplateAddress
          (walletTemplate_SpawnArguments (first32_zero_padded pubkey))),
     {| networkHrp := hrp |})
  /\ length (first32_zero_padded pubkey) = 32%nat
  /\ (forall pubkey' : list byte,
        first32_zero_padded pubkey' = first32_zero_padded pubkey ->
        PubkeyToAddress pubkey' hrp g = PubkeyToAddress pubkey hrp g).
Proof.
  assert (Heq : forall pk,
             PubkeyToAddress pk hrp g
             = (bech32_Encode hrp
                  (ComputePrincipal walletTemplate_TemplateAddress
                     (walletTemplate_SpawnArguments (first32_zero_padded pk))),
                {| networkHrp := hrp |})).
  { intros pk. unfold PubkeyToAddress, Address_String, SetNetworkHRP,
      PublicKeySize, first32_zero_padded.
    rewrite copy_zeroed. reflexivity. }
  split; [apply Heq|]. split; [apply first32_zero_padded_length|].
  intros pubkey' Hsame. rewrite !Heq, Hsame. reflexivity.
Qed.

End AddressProperties.

(** [SpawnMultiSig] with threshold 2 and the single participant [p1]
    returns the invalid-threshold error, not the invalid-participant-count
    error. *)
Lemma C2_counterexample :
  wallet.SpawnMultiSig (G := example.genvm) x02 [example.p1]
  = Err errInvalidThreshold
  /\ wallet.SpawnMultiSig (G := example.genvm) x02 [example.p1]
     <> Err errInvalidParticipants.
Proof. split; [reflexivity|discriminate]. Qed.

Lemma C2_fewer_than_two_participants_witness :
  (length [example.p1] < 2)%nat
  /\ wallet.SpawnMultiSig (G := example.genvm) x01 [example.p1]
     = Err errInvalidParticipants
  /\ wallet.SpawnMultiSig (G := example.genvm) x02 [example.p1]
     = Err errInvalidThreshold
  /\ wallet.SpawnMultiSig (G := example.genvm) x01 []
     = Err errInvalidThreshold.
Proof.
  assert (H1 : (length [example.p1] < 2)%nat) by (simpl; lia).
  assert (H0 : (length (@nil wallet.PublicKey) < 2)%nat) by (simpl; lia).
  split; [exact H1|]. split; [|split].
  - apply (proj1 (@C2_fewer_than_two_participants example.genvm x01
                    [example.p1] H1)).
    split; reflexivity.
  - apply (proj2 (@C2_fewer_than_two_participants example.genvm x02
                    [example.p1] H1)).
    intros [_ H]. discriminate H.
  - apply (proj2 (@C2_fewer_than_two_participants example.genvm x01 [] H0)).
    intros [H _]. discriminate H.
Defined.

Lemma C5_threshold_validation_witness :
  (2 <= length [example.p1; example.p2] <= 255)%nat
  /\ wallet.SpawnMultiSig (G := example.genvm) x00 [example.p1; example.p2]
     = Err errInvalidThreshold
  /\ wallet.SpawnMultiSig (G := example.genvm) x03 [example.p1; example.p2]
     = Err errInvalidThreshold
  /\ wallet.SpawnMultiSig (G := example.genvm) x02 [example.p1; example.p2]
     = Ok (wallet.ComputePrincipal (Genvm := example.genvm)
             (wallet.multisig_TemplateAddress (Genvm := example.genvm))
             (wallet.multisig_SpawnArguments x02 [example.p1; example.p2])).
Proof.
  assert (H : (2 <= length [example.p1; example.p2] <= 255)%nat)
    by (simpl; lia).
  split; [exact H|]. split; [|split].
  - apply (proj1 (@C5_threshold_validation example.genvm x00
                    [example.p1; example.p2] H)).
    left. reflexivity.
  - apply (proj1 (@C5_threshold_validation example.genvm x03
                    [example.p1; example.p2] H)).
    right. reflexivity.
  - apply (proj2 (@C5_threshold_validation example.genvm x02
                    [example.p1; example.p2] H)).
    split; discriminate.
Defined.

Lemma C9_threshold_compared_modulo_256_witness :
  (Z.of_nat (length (repeat example.p2 512)) mod 256 = 0)%Z
  /\ wallet.SpawnMultiSig (G := example.genvm) x07 (repeat example.p2 512)
     = Err errInvalidThreshold.
Proof.
  assert (H : (Z.of_nat (length (repeat example.p2 512)) mod 256 = 0)%Z)
    by (rewrite repeat_length; reflexivity).
  split; [exact H|].
  exact (proj1 (proj2 (@C9_threshold_compared_modulo_256 example.genvm x07
                         (repeat example.p2 512))) H).
Defined.

Lemma C10_PubkeyToAddress_any_length_witness :
  first32_zero_padded [x01; x00] = first32_zero_padded [x01]
  /\ wallet.PubkeyToAddress (G := example.genvm) [x01; x00] (str "sm")
       {| wallet.networkHrp := str "stest" |}
     = wallet.PubkeyToAddress (G := example.genvm) [x01] (str "sm")
         {| wallet.networkHrp := str "stest" |}
  /\ wallet.PubkeyToAddress (G := example.genvm) (repeat x07 40) (str "sm")
       {| wallet.networkHrp := str "stest" |}
     = wallet.PubkeyToAddress (G := example.genvm) (repeat x07 32) (str "sm")
         {| wallet.networkHrp := str "stest" |}.
Proof.
  split; [reflexivity|]. split.
  - apply (proj2 (proj2 (@C10_PubkeyToAddress_any_length example.genvm
                           [x01] (str "sm")
                           {| wallet.networkHrp := str "stest" |}))).
    reflexivity.
  - apply (proj2 (proj2 (@C10_PubkeyToAddress_any_length example.genvm
                           (repeat x07 32) (str "sm")
                           {| wallet.networkHrp := str "stest" |}))).
    reflexivity.
Defined.

(** ** The hex and JSON codec of binary fields *)

Section CodecProperties.

Import wallet.

Lemma list_pair_ind (A : Type) (P : list A -> Prop) :
  P [] -> (forall a, P [a]) -> (forall a b l, P l -> P (a :: b :: l)) ->
  forall l, P l.
Proof.
  intros H0 H1 H2 l.
  assert (H : P l /\ forall a, P (a :: l)).
  { induction l as [|x l [IHl IHcons]].
    - split; [exact H0|exact H1].
    - split; [apply IHcons|]. intros a. apply H2. exact IHl. }
  exact (proj1 H).
Qed.

(** The two digits written for a byte decode to that byte. *)
Lemma hex_digits_of_byte (v : byte) :
  hex.fromHexChar (hex.hexdigit (N.shiftr (byte_val v) 4))
  = Some (N.shiftr (byte_val v) 4)
  /\ hex.fromHexChar (hex.hexdigit (N.land (byte_val v) 0x0f))
     = Some (N.land (byte_val v) 0x0f)
  /\ byte_of_N (N.lor (N.shiftl (N.shiftr (byte_val v) 4) 4)
                      (N.land (byte_val v) 0x0f)) = v.
Proof. destruct v; vm_compute; repeat split; reflexivity. Qed.

Lemma Decode_pair (dst : list byte) (p q : byte) (rest : gostring) :
  hex.Decode dst (p :: q :: rest)
  = match hex.fromHexChar p with
    | None => (dst, Some (hex_InvalidByteError p))
    | Some a =>
      match hex.fromHexChar q with
      | None => (dst, Some (hex_InvalidByteError q))
      | Some b =>
        hex.Decode (dst ++ [byte_of_N (N.lor (N.shiftl a 4) b)]) rest
      end
    end.
Proof. reflexivity. Qed.

(** Decoding an encoding gives the bytes back. *)
Lemma Decode_EncodeToString (src : list byte) :
  forall dst, hex.Decode dst (hex.EncodeToString src) = (dst ++ src, None).
Proof.
  induction src as [|v src IH]; intros dst.
  - simpl. now rewrite app_nil_r.
  - destruct (hex_digits_of_byte v) as [Hhi [Hlo Hv]].
    change (hex.EncodeToString (v :: src))
      with (hex.hexdigit (N.shiftr (byte_val v) 4)
            :: hex.hexdigit (N.land (byte_val v) 0x0f)
            :: hex.EncodeToString src).
    rewrite Decode_pair, Hhi, Hlo, Hv, IH, <- app_assoc. reflexivity.
Qed.

Lemma EncodeToString_isHex (src : list byte) :
  Forall (fun c => json.isHex c = true) (hex.EncodeToString src).
Proof.
  induction src as [|v src IH]; [constructor|].
  destruct (hex_digits_of_byte v) as [Hhi [Hlo _]].
  change (hex.EncodeToString (v :: src))
    with (hex.hexdigit (N.shiftr (byte_val v) 4)
          :: hex.hexdigit (N.land (byte_val v) 0x0f)
          :: hex.EncodeToString src).
  constructor; [|constructor; [|exact IH]].
  - unfold json.isHex. now rewrite Hhi.
  - unfold json.isHex. now rewrite Hlo.
Qed.

(** Hex digits are written and read by the JSON codec as they are. *)
Lemma isHex_htmlSafe (c : byte) :
  json.isHex c = true -> json.htmlSafeSet c = true.
Proof. destruct c; intros H; try reflexivity; vm_compute in H; discriminate H. Qed.

Lemma appendString_loop_safe (b : byte) (turns : nat) (dst : list byte)
    (rest : gostring) :
  json.htmlSafeSet b = true ->
  json.appendString_loop (S turns) dst (b :: rest)
  = json.appendString_loop turns (dst ++ [b]) rest.
Proof. destruct b; intros H; try reflexivity; vm_compute in H; discriminate H. Qed.

Lemma scanString_safe (c : byte) (lit data : list byte) :
  json.htmlSafeSet c = true ->
  json.scanString lit (c :: data) = json.scanString (lit ++ [c]) data.
Proof. destruct c; intros H; try reflexivity; vm_compute in H; discriminate H. Qed.

Lemma unquote_usual_safe (c : byte) (turns : nat) (pre rest : list byte) :
  json.htmlSafeSet c = true ->
  json.unquote_usual (S turns) pre (c :: rest)
  = json.unquote_usual turns (pre ++ [c]) rest.
Proof. destruct c; intros H; try reflexivity; vm_compute in H; discriminate H. Qed.

Lemma appendString_loop_all_safe (s : gostring) :
  Forall (fun c => json.htmlSafeSet c = true) s ->
  forall turns dst, (length s <= turns)%nat ->
                    json.appendString_loop turns dst s = dst ++ s.
Proof.
  induction 1 as [|c s Hc Hs IH]; intros turns dst Hlen.
  - destruct turns; simpl; now rewrite app_nil_r.
  - destruct turns as [|turns]; [simpl in Hlen; lia|].
    rewrite appendString_loop_safe by exact Hc.
    rewrite IH by (simpl in Hlen; lia).
    now rewrite <- app_assoc.
Qed.

Lemma scanString_all_safe (s : gostring) :
  Forall (fun c => json.htmlSafeSet c = true) s ->
  forall lit rest,
    json.scanString lit (s ++ x22 :: rest) = Some (lit ++ s, rest).
Proof.
  induction 1 as [|c s Hc Hs IH]; intros lit rest.
  - simpl. now rewrite app_nil_r.
  - simpl app. rewrite scanString_safe by exact Hc.
    rewrite IH, <- app_assoc. reflexivity.
Qed.

Lemma unquote_usual_all_safe (s : gostring) :
  Forall (fun c => json.htmlSafeSet c = true) s ->
  forall turns pre, (length s <= turns)%nat ->
                    json.unquote_usual turns pre s = (pre ++ s, []).
Proof.
  induction 1 as [|c s Hc Hs IH]; intros turns pre Hlen.
  - destruct turns; simpl; now rewrite app_nil_r.
  - destruct turns as [|turns]; [simpl in Hlen; lia|].
    rewrite unquote_usual_safe by exact Hc.
    rewrite IH by (simpl in Hlen; lia).
    now rewrite <- app_assoc.
Qed.

(** A quoted string of such bytes unmarshals to the string. *)
Lemma Unmarshal_quoted_safe (s v : gostring) :
  Forall (fun c => json.htmlSafeSet c = true) s ->
  json.Unmarshal (x22 :: s ++ [x22]) v = (s, None).
Proof.
  intros Hs. unfold json.Unmarshal.
  change (json.skipSpace (x22 :: s ++ [x22])) with (x22 :: s ++ [x22]).
  cbv iota beta.
  rewrite (scanString_all_safe s Hs [] []).
  change (json.skipSpace []) with (@nil byte). simpl app.
  unfold json.unquote.
  rewrite (unquote_usual_all_safe s Hs (length s) [] (le_n _)).
  reflexivity.
Qed.

Lemma Marshal_safe (s : gostring) :
  Forall (fun c => json.htmlSafeSet c = true) s ->
  json.Marshal s = Ok (x22 :: s ++ [x22]).
Proof.
  intros Hs. unfold json.Marshal, json.appendString.
  rewrite (appendString_loop_all_safe s Hs (length s) _ (le_n _)).
  reflexivity.
Qed.

(** *** The loops of the JSON codec have turns enough *)

Lemma appendString_loop_step (turns : nat) (dst : list byte) (b : byte)
    (rest : gostring) :
  json.appendString_loop (S turns) dst (b :: rest)
  = if (byte_val b <? utf8.RuneSelf)%N then
      if json.htmlSafeSet b then json.appendString_loop turns (dst ++ [b]) rest
      else json.appendString_loop turns (dst ++ json.escape_ascii b) rest
    else
      let (c, size) := utf8.DecodeRuneInString (firstn 4 (b :: rest)) in
      if ((c =? utf8.RuneError)%N && (size =? 1)%nat) then
        json.appendString_loop turns (dst ++ [x5c; x75; x66; x66; x66; x64])
          (skipn size (b :: rest))
      else if ((c =? 0x2028) || (c =? 0x2029))%N then
        json.appendString_loop turns
          (dst ++ str "\u202" ++ [hex.hexdigit (N.land c 0xF)])
          (skipn size (b :: rest))
      else
        json.appendString_loop turns (dst ++ firstn size (b :: rest))
          (skipn size (b :: rest)).
Proof. reflexivity. Qed.

(** [length src] turns are enough for the loop of [appendString]. *)
Lemma appendString_loop_enough :
  forall (t1 t2 : nat) (src : gostring) (dst : list byte),
    (length src <= t1)%nat -> (length src <= t2)%nat ->
    json.appendString_loop t1 dst src = json.appendString_loop t2 dst src.
Proof.
  induction t1 as [|t1 IH]; intros t2 src dst H1 H2.
  - destruct src; [|simpl in H1; lia]. destruct t2; reflexivity.
  - destruct src as [|b rest]; [destruct t2; reflexivity|].
    destruct t2 as [|t2]; [simpl in H2; lia|].
    rewrite !appendString_loop_step.
    pose proof (DecodeRuneInString_size (firstn 4 (b :: rest))
                  ltac:(discriminate)) as Hsize.
    destruct (utf8.DecodeRuneInString (firstn 4 (b :: rest))) as [c size].
    simpl snd in Hsize.
    assert (Hrest : forall t, (length (b :: rest) <= S t)%nat ->
                              (length (skipn size (b :: rest)) <= t)%nat).
    { intros t Ht. rewrite length_skipn. lia. }
    simpl length in H1, H2.
    repeat match goal with
           | |- context [if ?c then _ else _] => destruct c
           end; apply IH; auto; lia.
Qed.

Lemma unquote_usual_step (turns : nat) (pre : list byte) (c : byte)
    (rest : list byte) :
  json.unquote_usual (S turns) pre (c :: rest)
  = if match c with x5c | x22 => true | _ => (byte_val c <? 0x20)%N end
    then (pre, c :: rest)
    else if (byte_val c <? utf8.RuneSelf)%N
    then json.unquote_usual turns (pre ++ [c]) rest
    else
      let (rr, size) := utf8.DecodeRuneInString (c :: rest) in
      if ((rr =? utf8.RuneError)%N && (size =? 1)%nat) then (pre, c :: rest)
      else json.unquote_usual turns (pre ++ firstn size (c :: rest))
             (skipn size (c :: rest)).
Proof. reflexivity. Qed.

(** [length s] turns are enough for the first pass of [unquoteBytes]. *)
Lemma unquote_usual_enough :
  forall (t1 t2 : nat) (s pre : list byte),
    (length s <= t1)%nat -> (length s <= t2)%nat ->
    json.unquote_usual t1 pre s = json.unquote_usual t2 pre s.
Proof.
  induction t1 as [|t1 IH]; intros t2 s pre H1 H2.
  - destruct s; [|simpl in H1; lia]. destruct t2; reflexivity.
  - destruct s as [|c rest]; [destruct t2; reflexivity|].
    destruct t2 as [|t2]; [simpl in H2; lia|].
    rewrite !unquote_usual_step.
    pose proof (DecodeRuneInString_size (c :: rest) ltac:(discriminate))
      as Hsize.
    destruct (utf8.DecodeRuneInString (c :: rest)) as [rr size].
    simpl snd in Hsize.
    assert (Hrest : forall t, (length (c :: rest) <= S t)%nat ->
                              (length (skipn size (c :: rest)) <= t)%nat).
    { intros t Ht. rewrite length_skipn. lia. }
    simpl length in H1, H2.
    repeat match goal with
           | |- context [if ?c then _ else _] => destruct c
           end; try reflexivity; apply IH; auto; lia.
Qed.

(** [length s] turns are enough for the second pass of [unquoteBytes]. *)
Lemma unquote_slow_enough :
  forall (t1 t2 : nat) (s b : list byte),
    (length s <= t1)%nat -> (length s <= t2)%nat ->
    json.unquote_slow t1 b s = json.unquote_slow t2 b s.
Proof.
  induction t1 as [|t1 IH]; intros t2 s b H1 H2.
  - destruct s; [|simpl in H1; lia]. destruct t2; reflexivity.
  - destruct s as [|c rest]; [destruct t2; reflexivity|].
    destruct t2 as [|t2]; [simpl in H2; lia|].
    pose proof (DecodeRuneInString_size (c :: rest) ltac:(discriminate))
      as Hsize.
    assert (Hskip : forall k t, (1 <= k)%nat ->
                                (length (c :: rest) <= S t)%nat ->
                                (length (skipn k (c :: rest)) <= t)%nat).
    { intros k t Hk Ht. rewrite length_skipn. lia. }
    assert (Hskip2 : forall t, (length (c :: rest) <= S t)%nat ->
                (length (skipn 6 (skipn 6 (c :: rest))) <= t)%nat).
    { intros t Ht. rewrite !length_skipn. lia. }
    cbn [length] in H1, H2.
    destruct c; cbn [json.unquote_slow];
      try solve [ repeat match goal with
                         | |- context [if ?c then _ else _] => destruct c
                         | |- context [let (_, _) := ?p in _] => destruct p
                         end;
                  try reflexivity; apply IH;
                  cbn [snd length] in *; rewrite ?length_skipn;
                  cbn [length]; lia ].
    destruct rest as [|e rest']; [reflexivity|].
    destruct e; try reflexivity;
      try solve [ apply IH; cbn [length] in *; lia ].
    repeat match goal with
           | |- context [match ?o with Some _ => _ | None => _ end] =>
             destruct o
           | |- context [if ?c then _ else _] => destruct c
           end;
      try reflexivity; apply IH; rewrite ?length_skipn;
      cbn [length] in *; lia.
Qed.

(** *** Case of the digits *)

(** Decoding does not look at the case of a digit. *)
Lemma fromHexChar_lower (c : byte) :
  hex.fromHexChar (ascii_lower c) = hex.fromHexChar c.
Proof. destruct c; reflexivity. Qed.

Lemma fromHexChar_upper (c : byte) :
  hex.fromHexChar (ascii_upper c) = hex.fromHexChar c.
Proof. destruct c; reflexivity. Qed.

Lemma Decode_map (f : byte -> byte) :
  (forall c, hex.fromHexChar (f c) = hex.fromHexChar c) ->
  forall (s : gostring) (dst : list byte),
    fst (hex.Decode dst (map f s)) = fst (hex.Decode dst s)
    /\ (snd (hex.Decode dst (map f s)) = None
        <-> snd (hex.Decode dst s) = None).
Proof.
  intros Hf s. induction s as [|p|p q s IH] using list_pair_ind; intros dst.
  - simpl. tauto.
  - simpl. rewrite Hf. destruct (hex.fromHexChar p); simpl;
      (split; [reflexivity|split; discriminate]).
  - change (map f (p :: q :: s)) with (f p :: f q :: map f s).
    rewrite !Decode_pair, !Hf.
    destruct (hex.fromHexChar p) as [a|]; simpl;
      [|split; [reflexivity|split; discriminate]].
    destruct (hex.fromHexChar q) as [b|]; simpl;
      [|split; [reflexivity|split; discriminate]].
    apply IH.
Qed.

(** Decoding succeeds exactly on the well-formed hex strings. *)
Lemma Decode_well_formed (s : gostring) :
  forall dst, snd (hex.Decode dst s) = None <-> well_formed_hex s = true.
Proof.
  unfold well_formed_hex.
  induction s as [|p|p q s IH] using list_pair_ind; intros dst.
  - simpl. tauto.
  - simpl. destruct (hex.fromHexChar p); simpl; split; discriminate.
  - rewrite Decode_pair.
    change (Nat.even (length (p :: q :: s))) with (Nat.even (length s)).
    change (forallb json.isHex (p :: q :: s))
      with (json.isHex p && (json.isHex q && forallb json.isHex s)).
    unfold json.isHex at 1 2.
    destruct (hex.fromHexChar p) as [a|]; simpl;
      [|rewrite andb_false_r; split; discriminate].
    destruct (hex.fromHexChar q) as [b|]; simpl;
      [|rewrite andb_false_r; split; discriminate].
    apply IH.
Qed.

(** C8: unmarshalling what [MarshalJSON] wrote for a byte sequence gives
    the byte sequence back; a quoted hex string decodes to the same bytes
    whatever the case of its digits, and the upper-case and lower-case
    forms of any string decode alike; a JSON string whose content is not
    a well-formed hex string makes [UnmarshalJSON] return an error. *)
Theorem C8_hex_codec_round_trip :
  (forall b c0 : list byte,
      exists data,
        MarshalJSON b = Ok data /\ UnmarshalJSON c0 data = (b, None))
  /\ (forall (b : list byte) (s : gostring) (c0 : list byte),
         map ascii_lower s = hex.EncodeToString b ->
         UnmarshalJSON c0 (x22 :: s ++ [x22]) = (b, None))
  /\ (forall s : gostring,
         fst (hex.DecodeString (map ascii_upper s))
         = fst (hex.DecodeString (map ascii_lower s))
         /\ (snd (hex.DecodeString (map ascii_upper s)) = None
             <-> snd (hex.DecodeString (map ascii_lower s)) = None))
  /\ (forall (data : list byte) (s : gostring) (c0 : list byte),
         json.Unmarshal data [] = (s, None) ->
         well_formed_hex s = false ->
         exists e, snd (UnmarshalJSON c0 data) = Some e).
Proof.
  assert (Hsafe : forall s, Forall (fun c => json.isHex c = true) s ->
                            Forall (fun c => json.htmlSafeSet c = true) s).
  { intros s Hs. eapply Forall_impl; [|exact Hs]. apply isHex_htmlSafe. }
  assert (Hvariant : forall (b : list byte) (s : gostring) (c0 : list byte),
             map ascii_lower s = hex.EncodeToString b ->
             UnmarshalJSON c0 (x22 :: s ++ [x22]) = (b, None)).
  { intros b s c0 Hs.
    assert (Hhex : Forall (fun c => json.isHex c = true) s).
    { pose proof (EncodeToString_isHex b) as He. rewrite <- Hs in He.
      rewrite Forall_map in He. eapply Forall_impl; [|exact He].
      intros c Hc. unfold json.isHex in *.
      now rewrite fromHexChar_lower in Hc. }
    unfold UnmarshalJSON.
    rewrite (Unmarshal_quoted_safe s [] (Hsafe s Hhex)).
    unfold hex.DecodeString.
    destruct (Decode_map ascii_lower fromHexChar_lower s []) as [Hfst Hsnd].
    rewrite Hs, Decode_EncodeToString in Hfst, Hsnd. simpl in Hfst, Hsnd.
    destruct (hex.Decode [] s) as [bytes err]. simpl in *.
    rewrite <- Hfst, (proj1 Hsnd eq_refl). reflexivity. }
  split; [|split; [exact Hvariant|split]].
  - intros b c0. exists (x22 :: hex.EncodeToString b ++ [x22]). split.
    + unfold MarshalJSON. apply Marshal_safe, Hsafe, EncodeToString_isHex.
    + unfold UnmarshalJSON.
      rewrite (Unmarshal_quoted_safe _ []
                 (Hsafe _ (EncodeToString_isHex b))).
      apply (Decode_EncodeToString b []).
  - intros s. unfold hex.DecodeString.
    destruct (Decode_map ascii_upper fromHexChar_upper s []) as [Hu1 Hu2].
    destruct (Decode_map ascii_lower fromHexChar_lower s []) as [Hl1 Hl2].
    split; [congruence|]. rewrite Hu2, Hl2. reflexivity.
  - intros data s c0 Hdata Hbad. unfold UnmarshalJSON. rewrite Hdata.
    unfold hex.DecodeString.
    destruct (snd (hex.Decode [] s)) as [e|] eqn:Herr; [now exists e|].
    apply Decode_well_formed in Herr. congruence.
Qed.

End CodecProperties.

Lemma C8_hex_codec_round_trip_witness :
  map ascii_lower (str "DEADbeef") = hex.EncodeToString [xde; xad; xbe; xef]
  /\ wallet.UnmarshalJSON [] (x22 :: str "DEADbeef" ++ [x22])
     = ([xde; xad; xbe; xef], None)
  /\ json.Unmarshal (x22 :: str "0g" ++ [x22]) [] = (str "0g", None)
  /\ well_formed_hex (str "0g") = false
  /\ (exists e,
        snd (wallet.UnmarshalJSON [] (x22 :: str "0g" ++ [x22])) = Some e)
  /\ (exists e,
        snd (wallet.UnmarshalJSON [] (x22 :: str "abc" ++ [x22])) = Some e).
Proof.
  destruct C8_hex_codec_round_trip as [_ [Hvariant [_ Hbad]]].
  split; [reflexivity|]. split; [|split; [reflexivity|split; [reflexivity|split]]].
  - apply Hvariant. reflexivity.
  - apply (Hbad _ (str "0g")); reflexivity.
  - apply (Hbad _ (str "abc")); reflexivity.
Defined.

(** * Further properties *)

(** ** Further properties of wallet construction *)

Section MoreWalletProperties.

Context {D : wallet.Deps}.

Import wallet.

Local Open Scope Z_scope.

Lemma count_guard_accepts (n : Z) :
  0 <= n <= MaxAccountsPerWallet ->
  (n <? 0) || (n >? MaxAccountsPerWallet) = false.
Proof.
  intros Hn. rewrite orb_false_iff, Z.ltb_ge, Z.gtb_ltb, Z.ltb_ge. lia.
Qed.

Lemma count_guard_accepts_inv (n : Z) :
  (n <? 0) || (n >? MaxAccountsPerWallet) = false ->
  0 <= n <= MaxAccountsPerWallet.
Proof.
  intros H. rewrite orb_false_iff, Z.ltb_ge, Z.gtb_ltb, Z.ltb_ge in H. lia.
Qed.

(** The loop over accounts that all derive. *)
Lemma accountsFromMaster_loop_derived (master : EDKeyPair) (seed : list byte) :
  forall (kps : list EDKeyPair) (i : Z) (accounts : list EDKeyPair),
    Forall2 (fun j kp => NewChildKeyPair master seed j = inl kp)
            (indices i (length kps)) kps ->
    accountsFromMaster_loop master seed (length kps) i accounts
    = (Ok (accounts ++ kps),
       map (call_NewChildKeyPair master seed) (indices i (length kps))).
Proof.
  induction kps as [|kp kps IH]; intros i accounts HF.
  - simpl. now rewrite app_nil_r.
  - simpl in HF. inversion HF as [|x y l l' Hkp Hrest]; subst.
    simpl. unfold bind, calling. rewrite Hkp.
    rewrite (IH (i + 1) (accounts ++ [kp]) Hrest), <- app_assoc.
    reflexivity.
Qed.

(** What a loop that ends well has done. *)
Lemma accountsFromMaster_loop_inv (master : EDKeyPair) (seed : list byte) :
  forall (turns : nat) (i : Z) (accounts l : list EDKeyPair)
         (tr : list call),
    accountsFromMaster_loop master seed turns i accounts = (Ok l, tr) ->
    exists kps,
      l = accounts ++ kps
      /\ length kps = turns
      /\ Forall2 (fun j kp => NewChildKeyPair master seed j = inl kp)
                 (indices i turns) kps
      /\ tr = map (call_NewChildKeyPair master seed) (indices i turns).
Proof.
  induction turns as [|t IH]; intros i accounts l tr Hrun.
  - simpl in Hrun. injection Hrun as <- <-. exists [].
    rewrite app_nil_r. repeat split; constructor.
  - simpl in Hrun. unfold bind, calling in Hrun.
    destruct (NewChildKeyPair master seed i) as [kp|msg] eqn:Hkp;
      [|discriminate].
    destruct (accountsFromMaster_loop master seed t (i + 1) (accounts ++ [kp]))
      as [r tr'] eqn:Hloop.
    injection Hrun as -> <-.
    destruct (IH _ _ _ _ Hloop) as (kps & -> & Hlen & HF & ->).
    exists (kp :: kps). rewrite <- app_assoc. simpl.
    repeat split; [now rewrite Hlen|constructor; assumption].
Qed.

(** The loop calls child derivation only, for an initial run of its
    indices, and never panics. *)
Lemma accountsFromMaster_loop_calls (master : EDKeyPair) (seed : list byte) :
  forall (turns : nat) (i : Z) (accounts : list EDKeyPair),
    (exists k, (k <= turns)%nat
               /\ snd (accountsFromMaster_loop master seed turns i accounts)
                  = map (call_NewChildKeyPair master seed) (indices i k))
    /\ forall msg,
         fst (accountsFromMaster_loop master seed turns i accounts)
         <> Panic msg.
Proof.
  induction turns as [|t IH]; intros i accounts.
  - split; [exists 0%nat; split; [lia|reflexivity]|discriminate].
  - simpl. unfold bind, calling.
    destruct (NewChildKeyPair master seed i) as [kp|msg].
    + destruct (IH (i + 1) (accounts ++ [kp])) as [(k & Hk & Htr) Hnp].
      destruct (accountsFromMaster_loop master seed t (i + 1) (accounts ++ [kp]))
        as [r tr].
      simpl in *. split; [|exact Hnp].
      exists (S k). split; [lia|]. simpl. now rewrite Htr.
    + split; [|discriminate]. exists 1%nat. split; [lia|reflexivity].
Qed.

Lemma firstn_indices (k turns : nat) :
  forall i, (k <= turns)%nat -> firstn k (indices i turns) = indices i k.
Proof.
  revert turns. induction k as [|k IH]; intros turns i Hk; [reflexivity|].
  destruct turns as [|turns]; [lia|]. simpl. rewrite IH by lia. reflexivity.
Qed.

Lemma Forall2_firstn (A B : Type) (P : A -> B -> Prop) (k : nat) :
  forall (l : list A) (l' : list B),
    Forall2 P l l' -> Forall2 P (firstn k l) (firstn k l').
Proof.
  induction k as [|k IH]; intros l l' HF; [constructor|].
  destruct HF; simpl; constructor; auto.
Qed.

(** What a successful construction from a mnemonic has checked and
    built. *)
Lemma NewMultiWalletFromMnemonic_inv (m : gostring) (n : Z) (w : Wallet)
    (tr : list call) :
  NewMultiWalletFromMnemonic m n = (Ok w, tr) ->
  0 <= n <= MaxAccountsPerWallet
  /\ m = strings.Join (strings.Fields m) (str " ")
  /\ bip39_IsMnemonicValid m = true
  /\ exists master accounts,
       NewMasterKeyPair (bip39_NewSeed m []) = inl master
       /\ Z.of_nat (length accounts) = n
       /\ derived_in_order master (bip39_NewSeed m []) accounts
       /\ w = wallet_of m master accounts.
Proof.
  unfold NewMultiWalletFromMnemonic.
  destruct ((n <? 0) || (n >? MaxAccountsPerWallet)) eqn:Hg; [discriminate|].
  apply count_guard_accepts_inv in Hg.
  unfold gostring_neqb.
  destruct (gostring_eq_dec m _) as [Hsp|_]; [|discriminate].
  unfold bind at 1. unfold calling_pure.
  destruct (bip39_IsMnemonicValid m) eqn:Hvalid; simpl negb; cbv iota;
    [|discriminate].
  unfold bind at 1. unfold bind at 1. unfold calling.
  destruct (NewMasterKeyPair (bip39_NewSeed m [])) as [master|msg] eqn:Hm;
    [|discriminate].
  unfold bind, accountsFromMaster.
  destruct (n <? 0) eqn:Hneg; [apply Z.ltb_lt in Hneg; lia|].
  destruct (accountsFromMaster_loop master (bip39_NewSeed m []) (Z.to_nat n) 0 [])
    as [[l|e|msg] tr'] eqn:Hloop; try discriminate.
  destruct (accountsFromMaster_loop_inv _ _ _ _ _ _ _ Hloop)
    as (kps & Hl & Hlen & HF & _).
  simpl in Hl. subst l. simpl. intros H. injection H as <- _.
  repeat split; try assumption; try lia.
  exists master, kps. repeat split.
  - lia.
  - unfold derived_in_order. now rewrite Hlen.
Qed.


(** X1: for an accepted count [n], a well-spaced mnemonic that bip39
    accepts, a master key pair that derives and [n] children that derive,
    [NewMultiWalletFromMnemonic] returns the wallet that holds the
    mnemonic verbatim, the master key pair and the [n] children in the
    order of their indices; it validates, makes the seed, derives the
    master, then the children 0 .. n-1, and reads the clock last. *)
Theorem X1_wallet_from_mnemonic (m : gostring) (n : Z) (master : EDKeyPair)
    (accounts : list EDKeyPair) :
  0 <= n <= MaxAccountsPerWallet ->
  m = strings.Join (strings.Fields m) (str " ") ->
  bip39_IsMnemonicValid m = true ->
  NewMasterKeyPair (bip39_NewSeed m []) = inl master ->
  Z.of_nat (length accounts) = n ->
  derived_in_order master (bip39_NewSeed m []) accounts ->
  NewMultiWalletFromMnemonic m n
  = (Ok (wallet_of m master accounts),
     [call_IsMnemonicValid m; call_NewSeed m [];
      call_NewMasterKeyPair (bip39_NewSeed m [])]
     ++ map (call_NewChildKeyPair master (bip39_NewSeed m []))
            (indices 0 (length accounts))
     ++ [call_NowTimeString])
  /\ Wallet_Mnemonic (wallet_of m master accounts) = m.
Proof.
  intros Hn Hsp Hvalid Hmaster Hlen Hder. split; [|reflexivity].
  unfold NewMultiWalletFromMnemonic.
  rewrite (count_guard_accepts n Hn). unfold gostring_neqb.
  destruct (gostring_eq_dec m _) as [_|Hne]; [|contradiction].
  unfold bind at 1. unfold calling_pure. rewrite Hvalid. simpl negb.
  cbv iota. unfold bind at 1. unfold bind at 1. unfold calling.
  rewrite Hmaster. unfold bind, accountsFromMaster.
  replace (n <? 0) with false by (symmetry; apply Z.ltb_ge; lia).
  rewrite <- Hlen, Nat2Z.id.
  rewrite (accountsFromMaster_loop_derived master _ accounts 0 [] Hder).
  reflexivity.
Qed.

(** X2: whenever [NewMultiWalletFromMnemonic] returns a wallet, the count
    was between 0 and [MaxAccountsPerWallet], the phrase equals its
    fields rejoined with single spaces and passed the bip39 validation,
    and the wallet holds that phrase, the master key pair of its seed
    and exactly [n] accounts, the child of index [i] at position [i]. *)
Theorem X2_wallet_from_mnemonic_sound (m : gostring) (n : Z) (w : Wallet) :
  fst (NewMultiWalletFromMnemonic m n) = Ok w ->
  0 <= n <= MaxAccountsPerWallet
  /\ m = strings.Join (strings.Fields m) (str " ")
  /\ bip39_IsMnemonicValid m = true
  /\ Wallet_Mnemonic w = m
  /\ NewMasterKeyPair (bip39_NewSeed m []) = inl (MasterKeypair (Secrets w))
  /\ Z.of_nat (length (Accounts (Secrets w))) = n
  /\ derived_in_order (MasterKeypair (Secrets w)) (bip39_NewSeed m [])
       (Accounts (Secrets w))
  /\ DisplayName (Meta w) = str "Main Wallet"
  /\ GenesisID (Meta w) = [].
Proof.
  intros Hok.
  destruct (NewMultiWalletFromMnemonic m n) as [r tr] eqn:Hrun.
  simpl in Hok. subst r.
  destruct (NewMultiWalletFromMnemonic_inv m n w tr Hrun)
    as (Hn & Hsp & Hvalid & master & accounts & Hm & Hlen & Hder & ->).
  repeat split; assumption || reflexivity || lia.
Qed.

(** X3: a failure of key derivation ends [NewMultiWalletFromMnemonic]
    with that error and no wallet.  When the master derivation fails, no
    child is derived; when the child of index [k] is the first to fail,
    the children after [k] are not derived; in both cases the clock is
    not read. *)
Theorem X3_derivation_failure_propagates (m : gostring) (n : Z) :
  0 <= n <= MaxAccountsPerWallet ->
  m = strings.Join (strings.Fields m) (str " ") ->
  bip39_IsMnemonicValid m = true ->
  (forall msg,
      NewMasterKeyPair (bip39_NewSeed m []) = inr msg ->
      NewMultiWalletFromMnemonic m n
      = (Err (errExternal msg),
         [call_IsMnemonicValid m; call_NewSeed m [];
          call_NewMasterKeyPair (bip39_NewSeed m [])]))
  /\ (forall master k msg,
         NewMasterKeyPair (bip39_NewSeed m []) = inl master ->
         0 <= k < n ->
         (forall i, 0 <= i < k ->
                    exists kp,
                      NewChildKeyPair master (bip39_NewSeed m []) i = inl kp) ->
         NewChildKeyPair master (bip39_NewSeed m []) k = inr msg ->
         NewMultiWalletFromMnemonic m n
         = (Err (errExternal msg),
            [call_IsMnemonicValid m; call_NewSeed m [];
             call_NewMasterKeyPair (bip39_NewSeed m [])]
            ++ map (call_NewChildKeyPair master (bip39_NewSeed m []))
                   (indices 0 (S (Z.to_nat k))))).
Proof.
  intros Hn Hsp Hvalid.
  assert (Hstart :
             NewMultiWalletFromMnemonic m n
             = bind (calling_pure (call_IsMnemonicValid m) true)
                 (fun _ =>
                    bind (calling_pure (call_NewSeed m []) (bip39_NewSeed m []))
                      (fun seed =>
                         bind (calling (call_NewMasterKeyPair seed)
                                 (NewMasterKeyPair seed))
                           (fun masterKeyPair =>
                              bind (accountsFromMaster masterKeyPair seed n)
                                (fun accounts =>
                                   walletFromMnemonicAndAccounts m
                                     masterKeyPair accounts))))).
  { unfold NewMultiWalletFromMnemonic.
    rewrite (count_guard_accepts n Hn). unfold gostring_neqb.
    destruct (gostring_eq_dec m _) as [_|Hne]; [|contradiction].
    unfold bind at 1. unfold calling_pure at 1. rewrite Hvalid.
    reflexivity. }
  split.
  - intros msg Hm. rewrite Hstart. unfold bind, calling_pure, calling.
    rewrite Hm. reflexivity.
  - intros master k msg Hm Hk Hall Hfail. rewrite Hstart.
    unfold bind at 1. unfold calling_pure at 1.
    unfold bind at 1. unfold calling_pure at 1.
    unfold bind at 1. unfold calling. rewrite Hm.
    unfold bind, accountsFromMaster.
    replace (n <? 0) with false by (symmetry; apply Z.ltb_ge; lia).
    rewrite (accountsFromMaster_loop_fail master (bip39_NewSeed m [])
               (Z.to_nat k) (Z.to_nat n) 0 [] msg).
    + reflexivity.
    + lia.
    + intros j Hj. apply Hall. lia.
    + simpl. rewrite Z2Nat.id by lia. exact Hfail.
Qed.


(** X5: for an accepted count [n], [NewMultiWalletFromLedger] asks the
    ledger for the master key pair first; when the ledger fails, that
    error is returned and nothing else is called; when it answers and
    the [n] children derive, the wallet holds the master key pair, the
    children in the order of their indices, derived with an empty seed,
    and [(none)] in place of a mnemonic. *)
Theorem X5_wallet_from_ledger (n : Z) :
  0 <= n <= MaxAccountsPerWallet ->
  (forall msg,
      NewMasterKeyPairFromLedger = inr msg ->
      NewMultiWalletFromLedger n
      = (Err (errExternal msg), [call_NewMasterKeyPairFromLedger]))
  /\ (forall master accounts,
         NewMasterKeyPairFromLedger = inl master ->
         Z.of_nat (length accounts) = n ->
         derived_in_order master [] accounts ->
         NewMultiWalletFromLedger n
         = (Ok (wallet_of (str "(none)") master accounts),
            call_NewMasterKeyPairFromLedger
            :: map (call_NewChildKeyPair master [])
                   (indices 0 (length accounts))
            ++ [call_NowTimeString])).
Proof.
  intros Hn. unfold NewMultiWalletFromLedger.
  rewrite (count_guard_accepts n Hn). split.
  - intros msg Hl. unfold bind, calling. rewrite Hl. reflexivity.
  - intros master accounts Hl Hlen Hder.
    unfold bind at 1. unfold calling. rewrite Hl.
    unfold bind, accountsFromMaster.
    replace (n <? 0) with false by (symmetry; apply Z.ltb_ge; lia).
    rewrite <- Hlen, Nat2Z.id.
    rewrite (accountsFromMaster_loop_derived master [] accounts 0 [] Hder).
    reflexivity.
Qed.


Lemma no_mnemonic_call_in_children (master : EDKeyPair) (seed : list byte)
    (l : list Z) :
  existsb mnemonic_call (map (call_NewChildKeyPair master seed) l) = false
  /\ ~ In call_NewMasterKeyPairFromLedger
         (map (call_NewChildKeyPair master seed) l).
Proof.
  induction l as [|i l [IH1 IH2]]; simpl; [split; [reflexivity|tauto]|].
  split; [exact IH1|]. intros [H|H]; [discriminate|contradiction].
Qed.

(** After the master key pair, a constructor calls child derivation and
    then at most the clock. *)
Lemma calls_after_master (master : EDKeyPair) (seed : list byte)
    (mn : gostring) (n : Z) :
  0 <= n ->
  exists k tl,
    snd (bind (accountsFromMaster master seed n)
           (fun accounts => walletFromMnemonicAndAccounts mn master accounts))
    = map (call_NewChildKeyPair master seed) (indices 0 k) ++ tl
    /\ (tl = [] \/ tl = [call_NowTimeString]).
Proof.
  intros Hn. unfold bind, accountsFromMaster.
  replace (n <? 0) with false by (symmetry; apply Z.ltb_ge; lia).
  destruct (accountsFromMaster_loop_calls master seed (Z.to_nat n) 0 [])
    as [(k & _ & Htr) _].
  destruct (accountsFromMaster_loop master seed (Z.to_nat n) 0 [])
    as [[l|e|msg] tr]; simpl in *; subst tr; exists k.
  - exists [call_NowTimeString]. split; [reflexivity|now right].
  - exists []. rewrite app_nil_r. split; [reflexivity|now left].
  - exists []. rewrite app_nil_r. split; [reflexivity|now left].
Qed.

(** X6: whatever the count, [NewMultiWalletFromLedger] makes no call to
    bip39 and none to the seed-based master derivation, and
    [NewMultiWalletFromMnemonic] makes no call to the ledger. *)
Theorem X6_ledger_and_mnemonic_paths_apart (m : gostring) (n : Z) :
  existsb mnemonic_call (snd (NewMultiWalletFromLedger n)) = false
  /\ ~ In call_NewMasterKeyPairFromLedger
         (snd (NewMultiWalletFromMnemonic m n)).
Proof.
  split.
  - unfold NewMultiWalletFromLedger.
    destruct ((n <? 0) || (n >? MaxAccountsPerWallet)) eqn:Hg; [reflexivity|].
    apply count_guard_accepts_inv in Hg.
    unfold bind at 1. unfold calling.
    destruct NewMasterKeyPairFromLedger as [master|msg]; [|reflexivity].
    destruct (calls_after_master master [] (str "(none)") n ltac:(lia))
      as (k & tl & Htr & Htl).
    destruct (bind _ _) as [r tr]. simpl in *. subst tr.
    rewrite existsb_app,
      (proj1 (no_mnemonic_call_in_children master [] (indices 0 k))).
    destruct Htl as [-> | ->]; reflexivity.
  - unfold NewMultiWalletFromMnemonic.
    destruct ((n <? 0) || (n >? MaxAccountsPerWallet)) eqn:Hg;
      [simpl; tauto|].
    apply count_guard_accepts_inv in Hg. unfold gostring_neqb.
    destruct (gostring_eq_dec m _); [|simpl; tauto].
    unfold bind at 1. unfold calling_pure at 1.
    destruct (bip39_IsMnemonicValid m); simpl negb; cbv iota;
      [|simpl; intros [H|H]; [discriminate|contradiction]].
    unfold bind at 1. unfold calling_pure at 1.
    unfold bind at 1. unfold calling.
    destruct (NewMasterKeyPair (bip39_NewSeed m [])) as [master|msg].
    + destruct (calls_after_master master (bip39_NewSeed m []) m n
                  ltac:(lia)) as (k & tl & Htr & Htl).
      destruct (bind _ _) as [r tr]. simpl in *. subst tr.
      intros [H|[H|[H|H]]]; try discriminate.
      apply in_app_or in H. destruct H as [H|H].
      * exact (proj2 (no_mnemonic_call_in_children master _ (indices 0 k)) H).
      * destruct Htl as [-> | ->]; simpl in H; [contradiction|].
        destruct H as [H|H]; [discriminate|contradiction].
    + simpl. intros [H|[H|[H|H]]]; try discriminate. contradiction.
Qed.

(** X7: when a mnemonic gives a wallet with [n] accounts, it gives a
    wallet for every smaller count [n'], with the same mnemonic and
    master key pair and with the first [n'] accounts of the larger
    wallet: asking for more accounts never changes the earlier ones. *)
Theorem X7_fewer_accounts_are_a_prefix (m : gostring) (n n' : Z) (w : Wallet) :
  fst (NewMultiWalletFromMnemonic m n) = Ok w ->
  0 <= n' <= n ->
  exists w',
    fst (NewMultiWalletFromMnemonic m n') = Ok w'
    /\ Mnemonic (Secrets w') = Mnemonic (Secrets w)
    /\ MasterKeypair (Secrets w') = MasterKeypair (Secrets w)
    /\ Accounts (Secrets w') = firstn (Z.to_nat n') (Accounts (Secrets w)).
Proof.
  intros Hok Hn'.
  destruct (NewMultiWalletFromMnemonic m n) as [r tr] eqn:Hrun.
  simpl in Hok. subst r.
  destruct (NewMultiWalletFromMnemonic_inv m n w tr Hrun)
    as (Hn & Hsp & Hvalid & master & accounts & Hm & Hlen & Hder & ->).
  assert (Hlen' : length (firstn (Z.to_nat n') accounts) = Z.to_nat n').
  { rewrite length_firstn. lia. }
  assert (Hder' : derived_in_order master (bip39_NewSeed m [])
                    (firstn (Z.to_nat n') accounts)).
  { unfold derived_in_order in *. rewrite Hlen'.
    rewrite <- (firstn_indices (Z.to_nat n') (length accounts) 0) by lia.
    now apply Forall2_firstn. }
  remember (firstn (Z.to_nat n') accounts) as kps eqn:Hkps.
  exists (wallet_of m master kps).
  split; [|repeat split; try reflexivity; exact Hkps].
  unfold NewMultiWalletFromMnemonic.
  rewrite (count_guard_accepts n' ltac:(lia)). unfold gostring_neqb.
  destruct (gostring_eq_dec m _) as [_|Hne]; [|contradiction].
  unfold bind at 1. unfold calling_pure. rewrite Hvalid. simpl negb.
  cbv iota. unfold bind at 1. unfold bind at 1. unfold calling.
  rewrite Hm. unfold bind, accountsFromMaster.
  replace (n' <? 0) with false by (symmetry; apply Z.ltb_ge; lia).
  rewrite <- Hlen'.
  rewrite (accountsFromMaster_loop_derived master _ kps 0 [] Hder').
  reflexivity.
Qed.

End MoreWalletProperties.

Section RandomProperties.

Context {D : wallet.Deps} {R : wallet.Bip39Gen}.

Import wallet.

Local Open Scope Z_scope.

(** X8: [NewMultiWalletRandomMnemonic] first asks for 256 bits of
    entropy, whatever the count; an error of the entropy source or of
    the phrase encoding is returned as it is, before any validation;
    the account count is checked only after a phrase was generated, so a
    count out of range fails with the invalid-account-count error after
    entropy was drawn. *)
Theorem X8_random_mnemonic_draws_entropy_first (n : Z) :
  (forall msg,
      bip39_NewEntropy 256 = inr msg ->
      NewMultiWalletRandomMnemonic n
      = (Err (errExternal msg), [call_NewEntropy 256]))
  /\ (forall e msg,
         bip39_NewEntropy 256 = inl e ->
         bip39_NewMnemonic e = inr msg ->
         NewMultiWalletRandomMnemonic n
         = (Err (errExternal msg), [call_NewEntropy 256; call_NewMnemonic e]))
  /\ (forall e m,
         bip39_NewEntropy 256 = inl e ->
         bip39_NewMnemonic e = inl m ->
         n < 0 \/ n > MaxAccountsPerWallet ->
         NewMultiWalletRandomMnemonic n
         = (Err errInvalidAccounts,
            [call_NewEntropy 256; call_NewMnemonic e])).
Proof.
  unfold NewMultiWalletRandomMnemonic.
  change (ed25519_SeedSize * 8) with 256.
  split; [|split].
  - intros msg He. rewrite He. reflexivity.
  - intros e msg He Hm. rewrite He, Hm. reflexivity.
  - intros e m He Hm Hout. rewrite He, Hm.
    unfold NewMultiWalletFromMnemonic.
    replace ((n <? 0) || (n >? MaxAccountsPerWallet)) with true.
    2:{ symmetry. rewrite orb_true_iff, Z.ltb_lt, Z.gtb_ltb, Z.ltb_lt. lia. }
    reflexivity.
Qed.

(** X9: a wallet returned by [NewMultiWalletRandomMnemonic] holds the
    phrase that bip39 made of the 256 bits of entropy drawn; that phrase
    is well spaced and passed the validation, and the wallet has exactly
    [n] accounts, with [n] between 0 and [MaxAccountsPerWallet]. *)
Theorem X9_random_mnemonic_wallet (n : Z) (w : Wallet) :
  fst (NewMultiWalletRandomMnemonic n) = Ok w ->
  exists e,
    bip39_NewEntropy 256 = inl e
    /\ bip39_NewMnemonic e = inl (Wallet_Mnemonic w)
    /\ Wallet_Mnemonic w
       = strings.Join (strings.Fields (Wallet_Mnemonic w)) (str " ")
    /\ bip39_IsMnemonicValid (Wallet_Mnemonic w) = true
    /\ Z.of_nat (length (Accounts (Secrets w))) = n
    /\ 0 <= n <= MaxAccountsPerWallet.
Proof.
  unfold NewMultiWalletRandomMnemonic.
  change (ed25519_SeedSize * 8) with 256.
  destruct (bip39_NewEntropy 256) as [e|msg] eqn:He; [|discriminate].
  destruct (bip39_NewMnemonic e) as [m|msg] eqn:Hgen; [|discriminate].
  destruct (NewMultiWalletFromMnemonic m n) as [r tr] eqn:Hrun.
  simpl. intros ->.
  destruct (NewMultiWalletFromMnemonic_inv m n w tr Hrun)
    as (Hn & Hsp & Hvalid & master & accounts & Hm & Hlen & Hder & ->).
  exists e. unfold Wallet_Mnemonic. simpl.
  repeat split; reflexivity || assumption || lia.
Qed.

End RandomProperties.

(** ** Further properties of addresses and multisig spawn *)

Section MoreAddressProperties.

Context {G : wallet.Genvm}.

Import wallet.

Local Open Scope Z_scope.

Lemma mod_256_le (x : Z) : 0 <= x -> x mod 256 <= x.
Proof. intros Hx. apply Z.mod_le; lia. Qed.

(** X10: [SpawnMultiSig] returns the invalid-participant-count error in
    one case only, a single participant with threshold 1; every other
    rejected call, also with no participant at all, gets the
    invalid-threshold error. *)
Theorem X10_participant_count_error_only_for_one_of_one
    (t : byte) (ps : list PublicKey) :
  (SpawnMultiSig t ps = Err errInvalidParticipants
   <-> length ps = 1%nat /\ uint8_val t = 1)
  /\ (forall e, SpawnMultiSig t ps = Err e ->
                e = errInvalidParticipants \/ e = errInvalidThreshold)
  /\ (ps = [] -> SpawnMultiSig t ps = Err errInvalidThreshold).
Proof.
  pose proof (uint8_val_range t) as Ht.
  unfold SpawnMultiSig, uint8_of_int.
  destruct ((uint8_val t <? 1)
            || (uint8_val t >? Z.of_nat (length ps) mod 256)) eqn:Hg.
  - apply orb_true_iff in Hg. rewrite Z.ltb_lt, Z.gtb_ltb, Z.ltb_lt in Hg.
    split; [|split].
    + split; [discriminate|]. intros [Hlen H1]. rewrite Hlen in Hg.
      change (Z.of_nat 1 mod 256) with 1 in Hg. lia.
    + intros e H. injection H as <-. now right.
    + reflexivity.
  - apply orb_false_iff in Hg. rewrite Z.ltb_ge, Z.gtb_ltb, Z.ltb_ge in Hg.
    pose proof (mod_256_le (Z.of_nat (length ps)) ltac:(lia)) as Hmod.
    destruct (Z.of_nat (length ps) <=? 1) eqn:Hle.
    + apply Z.leb_le in Hle. split; [|split].
      * split; [intros _; lia|reflexivity].
      * intros e H. injection H as <-. now left.
      * intros ->. change (Z.of_nat (length (@nil PublicKey)) mod 256)
          with 0 in Hg. lia.
    + apply Z.leb_gt in Hle. split; [|split].
      * split; [discriminate|lia].
      * intros e H. discriminate.
      * intros ->. change (Z.of_nat (length (@nil PublicKey))) with 0 in Hle.
        lia.
Qed.

(** X11: [SpawnMultiSig] succeeds exactly when there are at least two
    participants and the threshold is between 1 and the participant
    count modulo 256; an address it returns is the principal of the
    multisig template for the given threshold and participants in their
    order, and its threshold is at least 1 and never above the number
    of participants. *)
Theorem X11_spawn_success (t : byte) (ps : list PublicKey) :
  ((exists a, SpawnMultiSig t ps = Ok a)
   <-> (2 <= length ps)%nat
       /\ 1 <= uint8_val t <= Z.of_nat (length ps) mod 256)
  /\ (forall a,
         SpawnMultiSig t ps = Ok a ->
         a = ComputePrincipal multisig_TemplateAddress
               (multisig_SpawnArguments t ps)
         /\ 1 <= uint8_val t <= Z.of_nat (length ps)
         /\ (2 <= length ps)%nat).
Proof.
  unfold SpawnMultiSig, uint8_of_int.
  pose proof (mod_256_le (Z.of_nat (length ps)) ltac:(lia)) as Hmod.
  destruct ((uint8_val t <? 1)
            || (uint8_val t >? Z.of_nat (length ps) mod 256)) eqn:Hg.
  - apply orb_true_iff in Hg. rewrite Z.ltb_lt, Z.gtb_ltb, Z.ltb_lt in Hg.
    split; [|discriminate].
    split; [intros [a H]; discriminate|lia].
  - apply orb_false_iff in Hg. rewrite Z.ltb_ge, Z.gtb_ltb, Z.ltb_ge in Hg.
    destruct (Z.of_nat (length ps) <=? 1) eqn:Hle.
    + apply Z.leb_le in Hle. split; [|discriminate].
      split; [intros [a H]; discriminate|lia].
    + apply Z.leb_gt in Hle. split.
      * split; [intros _; lia|]. intros _. eexists; reflexivity.
      * intros a H. injection H as <-. repeat split; lia.
Qed.

(** X12: [PubkeyToAddress] uses a 32-byte key as it is, ignores every
    byte after the 32nd, and cannot tell a shorter key from the same key
    followed by zero bytes. *)
Theorem X12_key_truncated_and_zero_padded
    (pubkey extra : list byte) (hrp : gostring) (g : globals) :
  (length pubkey = 32%nat ->
   PubkeyToAddress pubkey hrp g
   = (bech32_Encode hrp
        (ComputePrincipal walletTemplate_TemplateAddress
           (walletTemplate_SpawnArguments pubkey)),
      {| networkHrp := hrp |})
   /\ PubkeyToAddress (pubkey ++ extra) hrp g = PubkeyToAddress pubkey hrp g)
  /\ (forall k : nat,
         (length pubkey + k <= 32)%nat ->
         PubkeyToAddress (pubkey ++ repeat x00 k) hrp g
         = PubkeyToAddress pubkey hrp g).
Proof.
  unfold PubkeyToAddress, Address_String, SetNetworkHRP, PublicKeySize.
  split.
  - intros Hlen. rewrite !copy_zeroed.
    rewrite firstn_app, length_app, Hlen.
    replace (32 - 32)%nat with 0%nat by lia.
    replace (32 - (32 + length extra))%nat with 0%nat by lia.
    rewrite <- Hlen, firstn_all. simpl. rewrite !app_nil_r.
    split; reflexivity.
  - intros k Hk. rewrite !copy_zeroed.
    rewrite firstn_app, length_app, repeat_length.
    rewrite !firstn_all2 by (rewrite ?repeat_length; lia).
    rewrite <- app_assoc, <- repeat_app.
    replace (k + (32 - (length pubkey + k)))%nat
      with (32 - length pubkey)%nat by lia.
    reflexivity.
Qed.

End MoreAddressProperties.

(** ** Further properties of the hex and JSON codec *)

Section MoreCodecProperties.

Import wallet.

Lemma EncodeToString_app (a b : list byte) :
  hex.EncodeToString (a ++ b) = hex.EncodeToString a ++ hex.EncodeToString b.
Proof.
  induction a as [|v a IH]; [reflexivity|].
  simpl app.
  change (hex.EncodeToString (v :: a ++ b))
    with (hex.hexdigit (N.shiftr (byte_val v) 4)
          :: hex.hexdigit (N.land (byte_val v) 0x0f)
          :: hex.EncodeToString (a ++ b)).
  now rewrite IH.
Qed.

Lemma EncodeToString_length (b : list byte) :
  length (hex.EncodeToString b) = (2 * length b)%nat.
Proof.
  induction b as [|v b IH]; [reflexivity|].
  change (hex.EncodeToString (v :: b))
    with (hex.hexdigit (N.shiftr (byte_val v) 4)
          :: hex.hexdigit (N.land (byte_val v) 0x0f)
          :: hex.EncodeToString b).
  simpl length. rewrite IH. lia.
Qed.

Lemma hexdigit_in_table (v : byte) :
  In (hex.hexdigit (N.shiftr (byte_val v) 4)) hex.hextable
  /\ In (hex.hexdigit (N.land (byte_val v) 0x0f)) hex.hextable.
Proof. destruct v; vm_compute; tauto. Qed.

Lemma EncodeToString_lowercase (b : list byte) :
  Forall (fun c => In c hex.hextable) (hex.EncodeToString b).
Proof.
  induction b as [|v b IH]; [constructor|].
  destruct (hexdigit_in_table v) as [Hhi Hlo].
  change (hex.EncodeToString (v :: b))
    with (hex.hexdigit (N.shiftr (byte_val v) 4)
          :: hex.hexdigit (N.land (byte_val v) 0x0f)
          :: hex.EncodeToString b).
  constructor; [exact Hhi|]. constructor; [exact Hlo|exact IH].
Qed.

(** Decoding goes through an encoding in front of anything. *)
Lemma Decode_EncodeToString_app (b : list byte) (rest : gostring) :
  forall dst,
    hex.Decode dst (hex.EncodeToString b ++ rest)
    = hex.Decode (dst ++ b) rest.
Proof.
  induction b as [|v b IH]; intros dst.
  - simpl. now rewrite app_nil_r.
  - destruct (hex_digits_of_byte v) as [Hhi [Hlo Hv]].
    change (hex.EncodeToString (v :: b) ++ rest)
      with (hex.hexdigit (N.shiftr (byte_val v) 4)
            :: hex.hexdigit (N.land (byte_val v) 0x0f)
            :: (hex.EncodeToString b ++ rest)).
    rewrite Decode_pair, Hhi, Hlo, Hv, IH, <- app_assoc. reflexivity.
Qed.

Lemma hex_safe (s : gostring) :
  Forall (fun c => json.isHex c = true) s ->
  Forall (fun c => json.htmlSafeSet c = true) s.
Proof. intros Hs. eapply Forall_impl; [|exact Hs]. apply isHex_htmlSafe. Qed.

Lemma skipSpace_spaces (ws rest : list byte) :
  forallb json.isSpace ws = true ->
  json.skipSpace (ws ++ rest) = json.skipSpace rest.
Proof.
  induction ws as [|c ws IH]; intros Hws; [reflexivity|].
  simpl in Hws. apply andb_true_iff in Hws as [Hc Hws].
  simpl. rewrite Hc. now apply IH.
Qed.

Lemma skipSpace_all_spaces (ws : list byte) :
  forallb json.isSpace ws = true -> json.skipSpace ws = [].
Proof.
  intros Hws. rewrite <- (app_nil_r ws). now rewrite skipSpace_spaces.
Qed.

(** A quoted string of bytes written as they are, between spaces. *)
Lemma Unmarshal_quoted_between_spaces (ws1 ws2 s v : gostring) :
  forallb json.isSpace ws1 = true ->
  forallb json.isSpace ws2 = true ->
  Forall (fun c => json.htmlSafeSet c = true) s ->
  json.Unmarshal (ws1 ++ json_quoted s ++ ws2) v = (s, None).
Proof.
  intros H1 H2 Hs. unfold json.Unmarshal, json_quoted.
  rewrite (skipSpace_spaces ws1 _ H1).
  change (json.skipSpace ((x22 :: s ++ [x22]) ++ ws2))
    with (x22 :: (s ++ [x22]) ++ ws2).
  cbv iota beta. rewrite <- app_assoc. simpl app.
  rewrite (scanString_all_safe s Hs [] ws2).
  rewrite (skipSpace_all_spaces ws2 H2). simpl app.
  unfold json.unquote.
  rewrite (unquote_usual_all_safe s Hs (length s) [] (le_n _)).
  reflexivity.
Qed.

(** X13: [MarshalJSON] never fails; what it writes is the hex encoding
    of the bytes between two double quotes, nothing escaped: two
    lower-case hex digits for each byte. *)
Theorem X13_MarshalJSON_output (b : list byte) :
  MarshalJSON b = Ok (json_quoted (hex.EncodeToString b))
  /\ length (hex.EncodeToString b) = (2 * length b)%nat
  /\ Forall (fun c => In c (str "0123456789abcdef")) (hex.EncodeToString b).
Proof.
  split; [|split].
  - unfold MarshalJSON. apply Marshal_safe, hex_safe, EncodeToString_isHex.
  - apply EncodeToString_length.
  - apply EncodeToString_lowercase.
Qed.

(** X14: [UnmarshalJSON] accepts JSON white space around the string
    literal and digits of either case inside it: every case variant of
    the encoding of [b], quoted and between spaces, tabs and line ends,
    sets the receiver to [b] without error. *)
Theorem X14_UnmarshalJSON_spaces_and_case
    (ws1 ws2 s : gostring) (b c0 : list byte) :
  forallb json.isSpace ws1 = true ->
  forallb json.isSpace ws2 = true ->
  map ascii_lower s = hex.EncodeToString b ->
  UnmarshalJSON c0 (ws1 ++ json_quoted s ++ ws2) = (b, None).
Proof.
  intros H1 H2 Hs.
  assert (Hhex : Forall (fun c => json.isHex c = true) s).
  { pose proof (EncodeToString_isHex b) as He. rewrite <- Hs in He.
    rewrite Forall_map in He. eapply Forall_impl; [|exact He].
    intros c Hc. unfold json.isHex in *.
    now rewrite fromHexChar_lower in Hc. }
  unfold UnmarshalJSON.
  rewrite (Unmarshal_quoted_between_spaces ws1 ws2 s [] H1 H2 (hex_safe s Hhex)).
  unfold hex.DecodeString.
  destruct (Decode_map ascii_lower fromHexChar_lower s []) as [Hfst Hsnd].
  rewrite Hs, Decode_EncodeToString in Hfst, Hsnd. simpl in Hfst, Hsnd.
  destruct (hex.Decode [] s) as [bytes err]. simpl in *.
  rewrite <- Hfst, (proj1 Hsnd eq_refl). reflexivity.
Qed.

(** The byte decoded from two hex digits is written back as these two
    digits in lower case. *)
Lemma hex_pair_normalised (p q : byte) (a b : N) :
  hex.fromHexChar p = Some a -> hex.fromHexChar q = Some b ->
  hex.EncodeToString [byte_of_N (N.lor (N.shiftl a 4) b)]
  = [ascii_lower p; ascii_lower q].
Proof.
  intros Hp Hq.
  destruct p; vm_compute in Hp; try discriminate Hp;
    injection Hp as <-;
    destruct q; vm_compute in Hq; try discriminate Hq;
    injection Hq as <-; reflexivity.
Qed.

Lemma Decode_normalised (s : gostring) :
  well_formed_hex s = true ->
  forall dst,
    exists b,
      hex.Decode dst s = (dst ++ b, None)
      /\ hex.EncodeToString b = map ascii_lower s
      /\ (2 * length b = length s)%nat.
Proof.
  unfold well_formed_hex.
  induction s as [|p|p q s IH] using list_pair_ind; intros Hwf dst.
  - exists []. simpl. rewrite app_nil_r. repeat split.
  - discriminate.
  - change (Nat.even (length (p :: q :: s))) with (Nat.even (length s)) in Hwf.
    change (forallb json.isHex (p :: q :: s))
      with (json.isHex p && (json.isHex q && forallb json.isHex s)) in Hwf.
    unfold json.isHex at 1 2 in Hwf.
    rewrite Decode_pair.
    destruct (hex.fromHexChar p) as [a|] eqn:Hp;
      [|rewrite andb_false_r in Hwf; discriminate].
    destruct (hex.fromHexChar q) as [b'|] eqn:Hq;
      [|rewrite andb_false_r in Hwf; discriminate].
    simpl in Hwf.
    destruct (IH Hwf (dst ++ [byte_of_N (N.lor (N.shiftl a 4) b')]))
      as (b & Hdec & Henc & Hlen).
    exists (byte_of_N (N.lor (N.shiftl a 4) b') :: b).
    rewrite Hdec, <- app_assoc. split; [reflexivity|]. split.
    + change (byte_of_N (N.lor (N.shiftl a 4) b') :: b)
        with ([byte_of_N (N.lor (N.shiftl a 4) b')] ++ b).
      rewrite EncodeToString_app, (hex_pair_normalised p q a b' Hp Hq), Henc.
      reflexivity.
    + simpl length. lia.
Qed.

(** X15: a quoted well-formed hex string, of digits of either case, is
    always accepted; it gives half as many bytes as it has digits, and
    marshalling these bytes writes the same string in lower case. *)
Theorem X15_unmarshal_then_marshal_lowers_case (s : gostring) (c0 : list byte) :
  well_formed_hex s = true ->
  exists b,
    UnmarshalJSON c0 (json_quoted s) = (b, None)
    /\ (2 * length b = length s)%nat
    /\ MarshalJSON b = Ok (json_quoted (map ascii_lower s)).
Proof.
  intros Hwf.
  destruct (Decode_normalised s Hwf []) as (b & Hdec & Henc & Hlen).
  exists b. split; [|split; [exact Hlen|]].
  - unfold UnmarshalJSON, json_quoted.
    rewrite (Unmarshal_quoted_safe s []); [exact Hdec|].
    apply hex_safe. apply Forall_forall. intros c Hc.
    unfold well_formed_hex in Hwf. apply andb_true_iff in Hwf as [_ Hall].
    rewrite forallb_forall in Hall. now apply Hall.
  - unfold MarshalJSON. rewrite <- Henc.
    apply Marshal_safe, hex_safe, EncodeToString_isHex.
Qed.

(** X16: the JSON value [null], with or without white space around it,
    is accepted without error and empties the receiver, whatever it
    held. *)
Theorem X16_UnmarshalJSON_null_empties (ws1 ws2 : gostring) (c0 : list byte) :
  forallb json.isSpace ws1 = true ->
  forallb json.isSpace ws2 = true ->
  UnmarshalJSON c0 (ws1 ++ str "null" ++ ws2) = ([], None).
Proof.
  intros H1 H2. unfold UnmarshalJSON, json.Unmarshal.
  rewrite (skipSpace_spaces ws1 _ H1).
  change (json.skipSpace (str "null" ++ ws2))
    with (x6e :: x75 :: x6c :: x6c :: ws2).
  cbv iota beta. rewrite (skipSpace_all_spaces ws2 H2). reflexivity.
Qed.

(** X17: when the string literal is read but its content is not hex,
    [UnmarshalJSON] returns the hex error and the receiver is
    overwritten with the bytes decoded before the error: after the
    digits of [b], a byte that is no hex digit, alone or after one more
    digit, gives the invalid-byte error for that byte and leaves [b]; a
    single digit left over gives the odd-length error and leaves [b]. *)
Theorem X17_hex_error_keeps_decoded_prefix
    (b c0 : list byte) (x d : byte) (post : gostring) :
  json.isHex x = false ->
  json.isHex d = true ->
  Forall (fun c => json.htmlSafeSet c = true) (x :: post) ->
  UnmarshalJSON c0 (json_quoted (hex.EncodeToString b ++ x :: post))
  = (b, Some (hex_InvalidByteError x))
  /\ UnmarshalJSON c0 (json_quoted (hex.EncodeToString b ++ d :: x :: post))
     = (b, Some (hex_InvalidByteError x))
  /\ UnmarshalJSON c0 (json_quoted (hex.EncodeToString b ++ [d]))
     = (b, Some hex_ErrLength).
Proof.
  intros Hx Hd Hsafe.
  assert (Hdsafe : json.htmlSafeSet d = true) by now apply isHex_htmlSafe.
  assert (Hb : Forall (fun c => json.htmlSafeSet c = true)
                      (hex.EncodeToString b))
    by apply hex_safe, EncodeToString_isHex.
  unfold json.isHex in Hx, Hd.
  destruct (hex.fromHexChar x) eqn:Hfx; [discriminate|].
  destruct (hex.fromHexChar d) as [dv|] eqn:Hfd; [|discriminate].
  unfold UnmarshalJSON, json_quoted, hex.DecodeString.
  split; [|split].
  - rewrite Unmarshal_quoted_safe by (apply Forall_app; split; assumption).
    rewrite Decode_EncodeToString_app. simpl app.
    destruct post as [|q post'].
    + simpl. now rewrite Hfx.
    + rewrite Decode_pair, Hfx. reflexivity.
  - rewrite Unmarshal_quoted_safe
      by (apply Forall_app; split; [assumption|constructor; assumption]).
    rewrite Decode_EncodeToString_app. simpl app.
    rewrite Decode_pair, Hfd, Hfx. reflexivity.
  - rewrite Unmarshal_quoted_safe
      by (apply Forall_app; split; [assumption|constructor; [assumption|constructor]]).
    rewrite Decode_EncodeToString_app. simpl. now rewrite Hfd.
Qed.

(** X18: hex that is not quoted as a JSON string is rejected: on empty
    input and on input that starts with a hex digit [UnmarshalJSON]
    returns the JSON error and leaves the receiver as it was. *)
Theorem X18_unquoted_hex_rejected (data c0 : list byte) :
  (data = [] \/ exists c rest, data = c :: rest /\ json.isHex c = true) ->
  UnmarshalJSON c0 data = (c0, Some json_UnmarshalError).
Proof.
  intros [->|(c & rest & -> & Hc)]; [reflexivity|].
  unfold UnmarshalJSON.
  destruct c; vm_compute in Hc; try discriminate Hc; reflexivity.
Qed.

End MoreCodecProperties.

(** ** Further properties of the whitespace check *)

Section MoreWhitespaceProperties.

Context {D : wallet.Deps}.

Import wallet.

Local Open Scope Z_scope.

Lemma single_spaced_other_space (b : byte) :
  strings.asciiSpace b = true -> b <> x20 ->
  forall (m : gostring) (p : bool), In b m -> single_spaced p m = false.
Proof.
  intros Hb Hne. induction m as [|c m IH]; intros p Hin; [contradiction|].
  simpl. destruct Hin as [->|Hin].
  - rewrite Hb. destruct (Byte.eqb b x20) eqn:E; [|reflexivity].
    apply Byte.byte_dec_bl in E. contradiction.
  - destruct (strings.asciiSpace c); rewrite (IH _ Hin);
      [apply andb_false_r|reflexivity].
Qed.

(** X19: once the count is accepted, a phrase that holds a tab, a line
    feed, a vertical tab, a form feed or a carriage return anywhere is
    rejected with the whitespace error, before bip39 is consulted: only
    the space byte can separate words. *)
Theorem X19_only_spaces_separate_words (m : gostring) (n : Z) (b : byte) :
  0 <= n <= MaxAccountsPerWallet ->
  In b m ->
  strings.asciiSpace b = true ->
  b <> x20 ->
  NewMultiWalletFromMnemonic m n = (Err errWhitespace, []).
Proof.
  intros Hn Hin Hb Hne.
  assert (Hdiff : m <> strings.Join (strings.Fields m) (str " ")).
  { intros Heq. pose proof (Fields_words m) as Hwords.
    pose proof (single_spaced_other_space b Hb Hne m true Hin) as Hscan.
    destruct (strings.Fields m) as [|w ws] eqn:HF.
    - simpl in Heq. subst m. contradiction.
    - rewrite Heq in Hscan.
      rewrite Join_single_spaced in Hscan;
        [discriminate|assumption|discriminate]. }
  unfold NewMultiWalletFromMnemonic.
  replace ((n <? 0) || (n >? MaxAccountsPerWallet)) with false.
  2:{ symmetry. rewrite orb_false_iff, Z.ltb_ge, Z.gtb_ltb, Z.ltb_ge. lia. }
  unfold gostring_neqb.
  destruct (gostring_eq_dec m _) as [Heq|_]; [contradiction|reflexivity].
Qed.

Lemma Fields_ascii_in_word :
  forall (w acc : gostring) (a : list gostring),
    forallb (fun b => (byte_val b <? utf8.RuneSelf)%N
                      && negb (strings.asciiSpace b)) w = true ->
    strings.Fields_ascii w (Some acc) a = (Some (acc ++ w), a).
Proof.
  induction w as [|b w IH]; intros acc a Hw.
  - simpl. now rewrite app_nil_r.
  - simpl in Hw. apply andb_true_iff in Hw as [Hb Hw].
    apply andb_true_iff in Hb as [_ Hb]. apply negb_true_iff in Hb.
    change (strings.Fields_ascii (b :: w) (Some acc) a)
      with (if strings.asciiSpace b
            then strings.Fields_ascii w None (a ++ [acc])
            else strings.Fields_ascii w (Some (acc ++ [b])) a).
    rewrite Hb, (IH _ _ Hw), <- app_assoc. reflexivity.
Qed.

(** A word of ASCII bytes without white space is its own single field. *)
Lemma ascii_word_Fields (w : gostring) :
  ascii_word w = true -> strings.Fields w = [w].
Proof.
  unfold ascii_word. intros H. apply andb_true_iff in H as [Hne Hw].
  destruct w as [|b w]; [discriminate|].
  unfold strings.Fields.
  assert (Hascii : forallb (fun b => (byte_val b <? utf8.RuneSelf)%N) (b :: w)
                   = true).
  { apply forallb_forall. intros c Hc. rewrite forallb_forall in Hw.
    specialize (Hw c Hc). now apply andb_true_iff in Hw as [Hw _]. }
  rewrite Hascii.
  simpl in Hw. apply andb_true_iff in Hw as [Hb Hw].
  apply andb_true_iff in Hb as [_ Hb]. apply negb_true_iff in Hb.
  change (strings.Fields_ascii (b :: w) None [])
    with (if strings.asciiSpace b then strings.Fields_ascii w None []
          else strings.Fields_ascii w (Some [b]) []).
  rewrite Hb. pose proof (Fields_ascii_in_word w [b] [] Hw) as Hrun.
  unfold gostring in *. rewrite Hrun. reflexivity.
Qed.

(** X20: a phrase made of words joined by single spaces, each word its
    own single field (as is every non-empty word of ASCII bytes without
    white space), never gets the whitespace error, the empty phrase
    included; once the count is accepted, the phrase is handed to the
    bip39 validation. *)
Theorem X20_single_spaced_phrases_pass (ws : list gostring) (n : Z) :
  Forall (fun w => strings.Fields w = [w] \/ ascii_word w = true) ws ->
  fst (NewMultiWalletFromMnemonic (strings.Join ws (str " ")) n)
  <> Err errWhitespace
  /\ (0 <= n <= MaxAccountsPerWallet ->
      exists tl,
        snd (NewMultiWalletFromMnemonic (strings.Join ws (str " ")) n)
        = call_IsMnemonicValid (strings.Join ws (str " ")) :: tl).
Proof.
  intros Hws.
  assert (Hwords : Forall (fun w => strings.Fields w = [w]) ws).
  { eapply Forall_impl; [|exact Hws]. intros w [H|H]; [exact H|].
    now apply ascii_word_Fields. }
  set (m := strings.Join ws (str " ")).
  assert (Hsp : m = strings.Join (strings.Fields m) (str " ")).
  { unfold m. now rewrite (Fields_Join ws Hwords). }
  unfold NewMultiWalletFromMnemonic.
  destruct ((n <? 0) || (n >? MaxAccountsPerWallet)) eqn:Hg.
  - split; [discriminate|]. intros Hn.
    rewrite orb_true_iff, Z.ltb_lt, Z.gtb_ltb, Z.ltb_lt in Hg. lia.
  - unfold gostring_neqb.
    destruct (gostring_eq_dec m _) as [_|Hne]; [|contradiction].
    split.
    + apply bind_not_local; [discriminate|discriminate|].
      intros valid. destruct valid; simpl negb; cbv iota; [|discriminate].
      apply bind_not_local; [discriminate|discriminate|]. intros seed.
      apply bind_not_local;
        [discriminate|apply calling_not_local; discriminate|].
      intros master.
      apply bind_not_local;
        [discriminate|apply accountsFromMaster_not_local; discriminate|].
      intros accounts. discriminate.
    + intros _. unfold bind at 1. unfold calling_pure at 1.
      match goal with
      | |- context [let (r, t') := ?c in _] => destruct c as [r tl]
      end.
      exists tl. reflexivity.
Qed.


(** Past the validation, a construction from a mnemonic fails with
    errors of key derivation only. *)
Lemma derivation_not_local (m : gostring) (n : Z) (e : error) :
  (forall msg, e <> errExternal msg) ->
  fst (bind (calling_pure (call_NewSeed m []) (bip39_NewSeed m []))
         (fun seed =>
            bind (calling (call_NewMasterKeyPair seed) (NewMasterKeyPair seed))
              (fun masterKeyPair =>
                 bind (accountsFromMaster masterKeyPair seed n)
                   (fun accounts =>
                      walletFromMnemonicAndAccounts m masterKeyPair
                        accounts))))
  <> Err e.
Proof.
  intros He.
  apply bind_not_local; [exact He|discriminate|]. intros seed.
  apply bind_not_local; [exact He|now apply calling_not_local|].
  intros master.
  apply bind_not_local; [exact He|now apply accountsFromMaster_not_local|].
  intros accounts. discriminate.
Qed.

(** X21: the checks of [NewMultiWalletFromMnemonic] come in a fixed
    order.  It returns the whitespace error exactly when the count is
    accepted and the phrase differs from its fields rejoined with single
    spaces, and the invalid-mnemonic error exactly when the count is
    accepted, the phrase equals its rejoined fields and bip39 rejects
    it. *)
Theorem X21_validation_errors_in_order (m : gostring) (n : Z) :
  (fst (NewMultiWalletFromMnemonic m n) = Err errWhitespace
   <-> 0 <= n <= MaxAccountsPerWallet
       /\ m <> strings.Join (strings.Fields m) (str " "))
  /\ (fst (NewMultiWalletFromMnemonic m n) = Err errInvalidMnemonic
      <-> 0 <= n <= MaxAccountsPerWallet
          /\ m = strings.Join (strings.Fields m) (str " ")
          /\ bip39_IsMnemonicValid m = false).
Proof.
  unfold NewMultiWalletFromMnemonic.
  destruct ((n <? 0) || (n >? MaxAccountsPerWallet)) eqn:Hg.
  - rewrite orb_true_iff, Z.ltb_lt, Z.gtb_ltb, Z.ltb_lt in Hg.
    split; (split; [discriminate|intros [Hn _]; lia]).
  - rewrite orb_false_iff, Z.ltb_ge, Z.gtb_ltb, Z.ltb_ge in Hg.
    unfold gostring_neqb.
    destruct (gostring_eq_dec m _) as [Heq|Hne].
    + unfold bind at 1. unfold calling_pure at 1.
      destruct (bip39_IsMnemonicValid m) eqn:Hvalid; simpl negb; cbv iota.
      * pose proof (derivation_not_local m n errWhitespace
                      ltac:(discriminate)) as H1.
        pose proof (derivation_not_local m n errInvalidMnemonic
                      ltac:(discriminate)) as H2.
        destruct (bind _ _) as [r tr]. simpl in *.
        split; (split; [intros H; contradiction|]).
        -- intros [_ H]. contradiction.
        -- intros [_ [_ H]]. discriminate.
      * simpl. split; (split; [try discriminate|]).
        -- intros [_ H]. contradiction.
        -- intros _. repeat split; [lia|lia|assumption].
        -- reflexivity.
    + simpl. split; (split; [try discriminate|]).
      * intros _. split; [lia|assumption].
      * reflexivity.
      * intros [_ [H _]]. contradiction.
Qed.

(** X22: whenever [NewMultiWalletFromLedger] returns a wallet, the count
    was between 0 and [MaxAccountsPerWallet], the wallet holds the
    master key pair the ledger gave and exactly [n] accounts, the child
    of index [i] for the empty seed at position [i], and its mnemonic is
    the text [(none)]. *)
Theorem X22_wallet_from_ledger_sound (n : Z) (w : Wallet) :
  fst (NewMultiWalletFromLedger n) = Ok w ->
  0 <= n <= MaxAccountsPerWallet
  /\ Wallet_Mnemonic w = str "(none)"
  /\ NewMasterKeyPairFromLedger = inl (MasterKeypair (Secrets w))
  /\ Z.of_nat (length (Accounts (Secrets w))) = n
  /\ derived_in_order (MasterKeypair (Secrets w)) [] (Accounts (Secrets w)).
Proof.
  unfold NewMultiWalletFromLedger.
  destruct ((n <? 0) || (n >? MaxAccountsPerWallet)) eqn:Hg; [discriminate|].
  rewrite orb_false_iff, Z.ltb_ge, Z.gtb_ltb, Z.ltb_ge in Hg.
  unfold bind at 1. unfold calling.
  destruct NewMasterKeyPairFromLedger as [master|msg] eqn:Hl; [|discriminate].
  unfold bind, accountsFromMaster.
  destruct (n <? 0) eqn:Hneg; [apply Z.ltb_lt in Hneg; lia|].
  destruct (accountsFromMaster_loop master [] (Z.to_nat n) 0 [])
    as [[l|e|msg] tr'] eqn:Hloop; try discriminate.
  destruct (accountsFromMaster_loop_inv _ _ _ _ _ _ _ Hloop)
    as (kps & Hkps & Hlen & HF & _).
  simpl in Hkps. subst l. simpl. intros H. injection H as <-.
  unfold Wallet_Mnemonic. simpl. repeat split; try reflexivity; try lia.
  unfold derived_in_order. now rewrite Hlen.
Qed.

End MoreWhitespaceProperties.

(** ** Witnesses of the further properties *)

Lemma X1_wallet_from_mnemonic_witness :
  (0 <= 3 <= 128)%Z
  /\ wallet.NewMultiWalletFromMnemonic (D := example.deps)
       example.twelve_words 3
     = (Ok (wallet_of (D := example.deps) example.twelve_words 0%Z
              [1; 2; 3]%Z),
        [wallet.call_IsMnemonicValid example.twelve_words;
         wallet.call_NewSeed example.twelve_words [];
         wallet.call_NewMasterKeyPair example.twelve_words;
         wallet.call_NewChildKeyPair (D := example.deps) 0%Z
           example.twelve_words 0%Z;
         wallet.call_NewChildKeyPair (D := example.deps) 0%Z
           example.twelve_words 1%Z;
         wallet.call_NewChildKeyPair (D := example.deps) 0%Z
           example.twelve_words 2%Z;
         wallet.call_NowTimeString]).
Proof.
  assert (Hn : (0 <= 3 <= @wallet.MaxAccountsPerWallet example.deps)%Z)
    by (simpl; lia).
  split; [exact Hn|].
  refine (proj1 (@X1_wallet_from_mnemonic example.deps example.twelve_words
                   3%Z 0%Z [1; 2; 3]%Z Hn eq_refl eq_refl eq_refl eq_refl _)).
  repeat constructor.
Defined.

Lemma X2_wallet_from_mnemonic_sound_witness :
  fst (wallet.NewMultiWalletFromMnemonic (D := example.deps)
         example.twelve_words 3)
  = Ok (wallet_of (D := example.deps) example.twelve_words 0%Z [1; 2; 3]%Z)
  /\ Z.of_nat (length [1; 2; 3]%Z) = 3%Z
  /\ derived_in_order (D := example.deps) 0%Z example.twelve_words
       [1; 2; 3]%Z.
Proof.
  assert (H : fst (wallet.NewMultiWalletFromMnemonic (D := example.deps)
                     example.twelve_words 3)
              = Ok (wallet_of (D := example.deps) example.twelve_words 0%Z
                      [1; 2; 3]%Z)) by reflexivity.
  split; [exact H|].
  destruct (@X2_wallet_from_mnemonic_sound example.deps example.twelve_words
              3%Z _ H) as (_ & _ & _ & _ & _ & Hlen & Hder & _).
  split; [exact Hlen|exact Hder].
Defined.

Lemma X3_derivation_failure_propagates_witness :
  (0 <= 5 <= 128)%Z
  /\ wallet.NewMultiWalletFromMnemonic (D := example.deps_no_ledger)
       example.twelve_words 5
     = (Err (errExternal "bad seed"),
        [wallet.call_IsMnemonicValid example.twelve_words;
         wallet.call_NewSeed example.twelve_words [];
         wallet.call_NewMasterKeyPair example.twelve_words])
  /\ wallet.NewMultiWalletFromMnemonic (D := example.deps)
       example.twelve_words 5
     = (Err (errExternal "derivation failed"),
        [wallet.call_IsMnemonicValid example.twelve_words;
         wallet.call_NewSeed example.twelve_words [];
         wallet.call_NewMasterKeyPair example.twelve_words]
        ++ map (wallet.call_NewChildKeyPair (D := example.deps) 0%Z
                  example.twelve_words) [0; 1; 2; 3]%Z).
Proof.
  assert (Hn : (0 <= 5 <= @wallet.MaxAccountsPerWallet example.deps)%Z)
    by (simpl; lia).
  assert (Hn' : (0 <= 5
                 <= @wallet.MaxAccountsPerWallet example.deps_no_ledger)%Z)
    by (simpl; lia).
  split; [exact Hn|]. split.
  - exact (proj1 (@X3_derivation_failure_propagates example.deps_no_ledger
                    example.twelve_words 5%Z Hn' eq_refl eq_refl)
             "bad seed"%string eq_refl).
  - refine (proj2 (@X3_derivation_failure_propagates example.deps
                     example.twelve_words 5%Z Hn eq_refl eq_refl)
              0%Z 3%Z "derivation failed"%string eq_refl _ _ eq_refl).
    + lia.
    + intros i Hi. simpl. destruct (i <? 3)%Z eqn:E.
      * eexists; reflexivity.
      * apply Z.ltb_ge in E. lia.
Defined.


Lemma X5_wallet_from_ledger_witness :
  (0 <= 2 <= 128)%Z
  /\ wallet.NewMultiWalletFromLedger (D := example.deps_no_ledger) 2
     = (Err (errExternal "ledger not connected"),
        [wallet.call_NewMasterKeyPairFromLedger])
  /\ wallet.NewMultiWalletFromLedger (D := example.deps) 2
     = (Ok (wallet_of (D := example.deps) (str "(none)") 0%Z [1; 2]%Z),
        [wallet.call_NewMasterKeyPairFromLedger;
         wallet.call_NewChildKeyPair (D := example.deps) 0%Z [] 0%Z;
         wallet.call_NewChildKeyPair (D := example.deps) 0%Z [] 1%Z;
         wallet.call_NowTimeString]).
Proof.
  assert (Hn : (0 <= 2 <= @wallet.MaxAccountsPerWallet example.deps)%Z)
    by (simpl; lia).
  assert (Hn' : (0 <= 2
                 <= @wallet.MaxAccountsPerWallet example.deps_no_ledger)%Z)
    by (simpl; lia).
  split; [exact Hn|]. split.
  - exact (proj1 (@X5_wallet_from_ledger example.deps_no_ledger 2%Z Hn')
             "ledger not connected"%string eq_refl).
  - refine (proj2 (@X5_wallet_from_ledger example.deps 2%Z Hn)
              0%Z [1; 2]%Z eq_refl eq_refl _).
    repeat constructor.
Defined.

Lemma X7_fewer_accounts_are_a_prefix_witness :
  fst (wallet.NewMultiWalletFromMnemonic (D := example.deps)
         example.twelve_words 3)
  = Ok (wallet_of (D := example.deps) example.twelve_words 0%Z [1; 2; 3]%Z)
  /\ (0 <= 2 <= 3)%Z
  /\ exists w',
       fst (wallet.NewMultiWalletFromMnemonic (D := example.deps)
              example.twelve_words 2) = Ok w'
       /\ wallet.Accounts (wallet.Secrets w') = [1; 2]%Z.
Proof.
  assert (H : fst (wallet.NewMultiWalletFromMnemonic (D := example.deps)
                     example.twelve_words 3)
              = Ok (wallet_of (D := example.deps) example.twelve_words 0%Z
                      [1; 2; 3]%Z)) by reflexivity.
  assert (Hn : (0 <= 2 <= 3)%Z) by lia.
  split; [exact H|]. split; [exact Hn|].
  destruct (@X7_fewer_accounts_are_a_prefix example.deps example.twelve_words
              3%Z 2%Z _ H Hn) as (w' & Hrun & _ & _ & Hacc).
  exists w'. split; [exact Hrun|exact Hacc].
Defined.

Lemma X8_random_mnemonic_draws_entropy_first_witness :
  wallet.NewMultiWalletRandomMnemonic (D := example.deps)
    (R := example.gen_failing) 1
  = (Err (errExternal "no entropy"), [wallet.call_NewEntropy 256])
  /\ ((-1 < 0)%Z \/ (-1 > 128)%Z)
  /\ wallet.NewMultiWalletRandomMnemonic (D := example.deps)
       (R := example.gen) (-1)
     = (Err errInvalidAccounts,
        [wallet.call_NewEntropy 256;
         wallet.call_NewMnemonic (repeat x00 32)]).
Proof.
  assert (Hout : (-1 < 0 \/ -1 > @wallet.MaxAccountsPerWallet example.deps)%Z)
    by (left; lia).
  split; [|split; [exact Hout|]].
  - exact (proj1 (@X8_random_mnemonic_draws_entropy_first example.deps
                    example.gen_failing 1%Z)
             "no entropy"%string eq_refl).
  - exact (proj2 (proj2 (@X8_random_mnemonic_draws_entropy_first example.deps
                           example.gen (-1)%Z))
             (repeat x00 32) example.twelve_words eq_refl eq_refl Hout).
Defined.

Lemma X9_random_mnemonic_wallet_witness :
  fst (wallet.NewMultiWalletRandomMnemonic (D := example.deps)
         (R := example.gen) 2)
  = Ok (wallet_of (D := example.deps) example.twelve_words 0%Z [1; 2]%Z)
  /\ exists e,
       wallet.bip39_NewEntropy (Bip39Gen := example.gen) 256 = inl e
       /\ wallet.bip39_NewMnemonic (Bip39Gen := example.gen) e
          = inl example.twelve_words.
Proof.
  assert (H : fst (wallet.NewMultiWalletRandomMnemonic (D := example.deps)
                     (R := example.gen) 2)
              = Ok (wallet_of (D := example.deps) example.twelve_words 0%Z
                      [1; 2]%Z)) by reflexivity.
  split; [exact H|].
  destruct (@X9_random_mnemonic_wallet example.deps example.gen 2%Z _ H)
    as (e & He & Hm & _).
  exists e. split; [exact He|exact Hm].
Defined.

Lemma X10_participant_count_error_only_for_one_of_one_witness :
  @nil wallet.PublicKey = []
  /\ wallet.SpawnMultiSig (G := example.genvm) x00 [] = Err errInvalidThreshold.
Proof.
  split; [reflexivity|].
  exact (proj2 (proj2 (@X10_participant_count_error_only_for_one_of_one
                         example.genvm x00 [])) eq_refl).
Defined.

Lemma X11_spawn_success_witness :
  wallet.SpawnMultiSig (G := example.genvm) x01 (repeat example.p1 257)
  = Ok (wallet.ComputePrincipal (Genvm := example.genvm)
          (wallet.multisig_TemplateAddress (Genvm := example.genvm))
          (wallet.multisig_SpawnArguments x01 (repeat example.p1 257)))
  /\ (1 <= wallet.uint8_val x01 <= Z.of_nat (length (repeat example.p1 257)))%Z.
Proof.
  assert (H : wallet.SpawnMultiSig (G := example.genvm) x01
                (repeat example.p1 257)
              = Ok (wallet.ComputePrincipal (Genvm := example.genvm)
                      (wallet.multisig_TemplateAddress (Genvm := example.genvm))
                      (wallet.multisig_SpawnArguments x01
                         (repeat example.p1 257)))) by reflexivity.
  split; [exact H|].
  exact (proj1 (proj2 (proj2 (@X11_spawn_success example.genvm x01
                                (repeat example.p1 257)) _ H))).
Defined.

Lemma X12_key_truncated_and_zero_padded_witness :
  length (repeat x07 32) = 32%nat
  /\ wallet.PubkeyToAddress (G := example.genvm) (repeat x07 32 ++ [x01])
       (str "sm") {| wallet.networkHrp := [] |}
     = wallet.PubkeyToAddress (G := example.genvm) (repeat x07 32)
         (str "sm") {| wallet.networkHrp := [] |}
  /\ (length [x07; x08] + 3 <= 32)%nat
  /\ wallet.PubkeyToAddress (G := example.genvm) ([x07; x08] ++ repeat x00 3)
       (str "sm") {| wallet.networkHrp := [] |}
     = wallet.PubkeyToAddress (G := example.genvm) [x07; x08]
         (str "sm") {| wallet.networkHrp := [] |}.
Proof.
  assert (H32 : length (repeat x07 32) = 32%nat) by reflexivity.
  assert (Hk : (length [x07; x08] + 3 <= 32)%nat) by (simpl; lia).
  split; [exact H32|]. split; [|split; [exact Hk|]].
  - exact (proj2 (proj1 (@X12_key_truncated_and_zero_padded example.genvm
                           (repeat x07 32) [x01] (str "sm")
                           {| wallet.networkHrp := [] |}) H32)).
  - exact (proj2 (@X12_key_truncated_and_zero_padded example.genvm
                    [x07; x08] [] (str "sm") {| wallet.networkHrp := [] |})
             3%nat Hk).
Defined.

Lemma X14_UnmarshalJSON_spaces_and_case_witness :
  forallb json.isSpace [x20; x0a] = true
  /\ forallb json.isSpace [x09; x0d] = true
  /\ map ascii_lower (str "DEADbeef") = hex.EncodeToString [xde; xad; xbe; xef]
  /\ wallet.UnmarshalJSON [x01]
       ([x20; x0a] ++ json_quoted (str "DEADbeef") ++ [x09; x0d])
     = ([xde; xad; xbe; xef], None).
Proof.
  split; [reflexivity|]. split; [reflexivity|]. split; [reflexivity|].
  exact (X14_UnmarshalJSON_spaces_and_case [x20; x0a] [x09; x0d]
           (str "DEADbeef") [xde; xad; xbe; xef] [x01]
           eq_refl eq_refl eq_refl).
Defined.

Lemma X15_unmarshal_then_marshal_lowers_case_witness :
  well_formed_hex (str "DEADbeef") = true
  /\ exists b,
       wallet.UnmarshalJSON [] (json_quoted (str "DEADbeef")) = (b, None)
       /\ wallet.MarshalJSON b = Ok (json_quoted (str "deadbeef")).
Proof.
  split; [reflexivity|].
  destruct (X15_unmarshal_then_marshal_lowers_case (str "DEADbeef") []
              eq_refl) as (b & Hdec & _ & Henc).
  exists b. split; [exact Hdec|exact Henc].
Defined.

Lemma X16_UnmarshalJSON_null_empties_witness :
  forallb json.isSpace [x20] = true
  /\ forallb json.isSpace [x0a] = true
  /\ wallet.UnmarshalJSON [xde; xad] ([x20] ++ str "null" ++ [x0a])
     = ([], None).
Proof.
  split; [reflexivity|]. split; [reflexivity|].
  exact (X16_UnmarshalJSON_null_empties [x20] [x0a] [xde; xad]
           eq_refl eq_refl).
Defined.

Lemma X17_hex_error_keeps_decoded_prefix_witness :
  json.isHex x67 = false
  /\ json.isHex x61 = true
  /\ wallet.UnmarshalJSON [x01] (json_quoted (str "deg7"))
     = ([xde], Some (hex_InvalidByteError x67))
  /\ wallet.UnmarshalJSON [x01] (json_quoted (str "deag7"))
     = ([xde], Some (hex_InvalidByteError x67))
  /\ wallet.UnmarshalJSON [x01] (json_quoted (str "dea"))
     = ([xde], Some hex_ErrLength).
Proof.
  split; [reflexivity|]. split; [reflexivity|].
  refine (X17_hex_error_keeps_decoded_prefix [xde] [x01] x67 x61 [x37]
            eq_refl eq_refl _).
  repeat constructor.
Defined.

Lemma X18_unquoted_hex_rejected_witness :
  (exists c rest, str "deadbeef" = c :: rest /\ json.isHex c = true)
  /\ wallet.UnmarshalJSON [x01] (str "deadbeef")
     = ([x01], Some json_UnmarshalError).
Proof.
  assert (H : exists c rest,
             str "deadbeef" = c :: rest /\ json.isHex c = true).
  { exists x64, (str "eadbeef"). split; reflexivity. }
  split; [exact H|].
  exact (X18_unquoted_hex_rejected (str "deadbeef") [x01] (or_intror H)).
Defined.

Lemma X19_only_spaces_separate_words_witness :
  (0 <= 1 <= 128)%Z
  /\ In x09 (str "abandon" ++ x09 :: str "ability")
  /\ wallet.NewMultiWalletFromMnemonic (D := example.deps)
       (str "abandon" ++ x09 :: str "ability") 1
     = (Err errWhitespace, []).
Proof.
  assert (Hn : (0 <= 1 <= @wallet.MaxAccountsPerWallet example.deps)%Z)
    by (simpl; lia).
  assert (Hin : In x09 (str "abandon" ++ x09 :: str "ability")).
  { apply in_or_app. right. left. reflexivity. }
  split; [exact Hn|]. split; [exact Hin|].
  refine (@X19_only_spaces_separate_words example.deps _ 1%Z x09 Hn Hin
            eq_refl _).
  discriminate.
Defined.

Lemma X20_single_spaced_phrases_pass_witness :
  Forall (fun w => strings.Fields w = [w] \/ ascii_word w = true)
         [str "abandon"; str "ability"]
  /\ fst (wallet.NewMultiWalletFromMnemonic (D := example.deps)
            (str "abandon ability") 1)
     <> Err errWhitespace.
Proof.
  assert (H : Forall (fun w => strings.Fields w = [w] \/ ascii_word w = true)
                     [str "abandon"; str "ability"]).
  { repeat constructor; right; reflexivity. }
  split; [exact H|].
  exact (proj1 (@X20_single_spaced_phrases_pass example.deps
                  [str "abandon"; str "ability"] 1%Z H)).
Defined.

Lemma X22_wallet_from_ledger_sound_witness :
  fst (wallet.NewMultiWalletFromLedger (D := example.deps) 2)
  = Ok (wallet_of (D := example.deps) (str "(none)") 0%Z [1; 2]%Z)
  /\ derived_in_order (D := example.deps) 0%Z [] [1; 2]%Z.
Proof.
  assert (H : fst (wallet.NewMultiWalletFromLedger (D := example.deps) 2)
              = Ok (wallet_of (D := example.deps) (str "(none)") 0%Z
                      [1; 2]%Z)) by reflexivity.
  split; [exact H|].
  exact (proj2 (proj2 (proj2 (proj2
           (@X22_wallet_from_ledger_sound example.deps 2%Z _ H))))).
Defined.
